(** * ldc: the interactive helpers of package [cmd]

    A shallow embedding of the helper functions of the [cmd] package
    ([confirmDelete], [yesOrNo], [isInteractive], [editFile]) and of the
    project commands ([getProjectArg], [deleteProject]), together with the
    properties the design document states about them.

    Go values are modelled as follows.
    - [string] is a Rocq [string]; [[]byte] is a [list byte].
    - [error] is the text that [err.Error()] gives; a nil error is [None].
    - [interface{}] values kept in the shell context are a small tagged union.
    - Everything outside the process (console, file system, editor, remote
      service) lives in one [World] record that every operation threads;
      what the outside answers is scripted in that record or, for one run of
      the external editor, in an [Attempt].
    - A pointer is a location in the heap of [World]. *)

From Stdlib Require Import Strings.String Strings.Ascii Strings.Byte ZArith Lia.
From stdpp Require Import base option list strings pretty gmap.

Local Open Scope string_scope.
Local Open Scope list_scope.

(** ** Go values *)

Definition error := string.
Definition bytes := list byte.

(** [[]byte("...")] *)
Definition B (s : string) : bytes := list_byte_of_string s.

Definition nl : string := String (ascii_of_nat 10) EmptyString.

(** How [fmt] shows an [error] operand: a nil error prints as [<nil>]. *)
Definition showErr (e : option error) : string :=
  match e with
  | Some msg => msg
  | None => "<nil>"
  end.

(** A decoded JSON value, as an [interface{}] holds it.  Numbers keep their
    literal: nothing here computes with them. *)
#[local] Unset Elimination Schemes.
Inductive JSON : Type :=
| JNil
| JBool (b : bool)
| JNumber (literal : string)
| JString (s : string)
| JArray (items : list JSON)
| JObject (fields : list (string * JSON)).
#[local] Set Elimination Schemes.

(** What [c.Get(key)] can hold. *)
Inductive Value : Type :=
| VBool (b : bool)
| VString (s : string)
| VInt (z : Z).

(** jsonpatch.JsonPatchOperation *)
Record JsonPatchOperation : Type := mkJsonPatchOperation {
  Operation : string;
  jPath : string;
  jValue : JSON
}.

Definition loc := nat.

(** ldapi.PatchOperation: [Value] is a [*interface{}]. *)
Record PatchOperation : Type := mkPatchOperation {
  Op : string;
  Path : string;
  Value_ : option loc
}.

(** ldapi.PatchComment *)
Record PatchComment : Type := mkPatchComment {
  Patch : list PatchOperation;
  Comment : string
}.

(** ldapi.Project, the fields the commands read. *)
Record Environment : Type := mkEnvironment { eKey : string }.
Record Project : Type := mkProject {
  Key : string;
  Name : string;
  Environments : list Environment
}.

Inductive ApiCall : Type :=
| GetProjects
| PostProject (key name : string)
| GetProject (key : string)
| DeleteProject (key : string).

(** One run of the external editor on a scratch file. *)
Record Launch : Type := mkLaunch {
  lPath : string;
  lArgv : list string;
  lSeed : option bytes
}.

(** ** The world *)

Record World : Type := mkWorld {
  (** ishell context *)
  values : gmap string Value;
  args : list string;
  stdin : list string;
  stdout : list string;
  reported : list error;
  picks : list Z;
  (** operating system *)
  lookup_editor : string → bytes * option error;
  files : gmap string bytes;
  launches : list Launch;
  (** remote service *)
  projects_reply : nat → list Project * option error;
  delete_reply : nat → option error;
  calls : list ApiCall;
  (** Go heap: variables whose address escapes *)
  heap : list JsonPatchOperation
}.

Definition with_stdin (l : list string) (w : World) : World :=
  mkWorld (values w) (args w) l (stdout w) (reported w) (picks w)
          (lookup_editor w) (files w) (launches w)
          (projects_reply w) (delete_reply w) (calls w) (heap w).

Definition with_stdout (l : list string) (w : World) : World :=
  mkWorld (values w) (args w) (stdin w) l (reported w) (picks w)
          (lookup_editor w) (files w) (launches w)
          (projects_reply w) (delete_reply w) (calls w) (heap w).

Definition with_reported (l : list error) (w : World) : World :=
  mkWorld (values w) (args w) (stdin w) (stdout w) l (picks w)
          (lookup_editor w) (files w) (launches w)
          (projects_reply w) (delete_reply w) (calls w) (heap w).

Definition with_picks (l : list Z) (w : World) : World :=
  mkWorld (values w) (args w) (stdin w) (stdout w) (reported w) l
          (lookup_editor w) (files w) (launches w)
          (projects_reply w) (delete_reply w) (calls w) (heap w).

Definition with_files (m : gmap string bytes) (w : World) : World :=
  mkWorld (values w) (args w) (stdin w) (stdout w) (reported w) (picks w)
          (lookup_editor w) m (launches w)
          (projects_reply w) (delete_reply w) (calls w) (heap w).

Definition with_launches (l : list Launch) (w : World) : World :=
  mkWorld (values w) (args w) (stdin w) (stdout w) (reported w) (picks w)
          (lookup_editor w) (files w) l
          (projects_reply w) (delete_reply w) (calls w) (heap w).

Definition with_calls (l : list ApiCall) (w : World) : World :=
  mkWorld (values w) (args w) (stdin w) (stdout w) (reported w) (picks w)
          (lookup_editor w) (files w) (launches w)
          (projects_reply w) (delete_reply w) l (heap w).

Definition with_heap (h : list JsonPatchOperation) (w : World) : World :=
  mkWorld (values w) (args w) (stdin w) (stdout w) (reported w) (picks w)
          (lookup_editor w) (files w) (launches w)
          (projects_reply w) (delete_reply w) (calls w) h.

(** ** The shell context

    [c.Print], [c.Println] and [c.Printf] append to the console; [c.Err]
    records the error; [c.ReadLine] takes the next line and gives the empty
    string once the input is used up; [c.MultiChoice] shows its text and
    gives the next scripted pick, or -1 when there is none. *)
Module Shell.

Definition Get (key : string) (w : World) : option Value := values w !! key.

Definition Print (s : string) (w : World) : World :=
  with_stdout (stdout w ++ [s]) w.

Definition Println (operands : list string) (w : World) : World :=
  Print (String.concat " " operands +:+ nl) w.

Definition Err (e : error) (w : World) : World :=
  with_reported (reported w ++ [e]) w.

Definition ReadLine (w : World) : string * World :=
  match stdin w with
  | [] => ("", w)
  | line :: rest => (line, with_stdin rest w)
  end.

Definition MultiChoice (options : list string) (text : string) (w : World)
  : Z * World :=
  match picks w with
  | [] => ((-1)%Z, Print text w)
  | k :: rest => (k, with_picks rest (Print text w))
  end.

End Shell.

(** ** package strings *)
Module Strings.

Definition lower (c : ascii) : ascii :=
  let n := nat_of_ascii c in
  if (65 <=? n)%nat && (n <=? 90)%nat then ascii_of_nat (n + 32) else c.

(** [strings.ToLower] on the ASCII letters.  A rune outside ASCII is left
    as it is: none of them has a lower case inside ASCII that the code
    below compares with. *)
Fixpoint ToLower (s : string) : string :=
  match s with
  | EmptyString => EmptyString
  | String c rest => String (lower c) (ToLower rest)
  end.

Fixpoint trimLeft (s : string) : string :=
  match s with
  | EmptyString => EmptyString
  | String c rest => if Ascii.is_space c then trimLeft rest else s
  end.

(** [strings.TrimSpace], for the ASCII white space. *)
Definition TrimSpace (s : string) : string :=
  String.rev (trimLeft (String.rev (trimLeft s))).

(** [strings.HasPrefix] *)
Fixpoint HasPrefix (s prefix : string) : bool :=
  match prefix with
  | EmptyString => true
  | String p prefix' =>
      match s with
      | EmptyString => false
      | String c s' => bool_decide (c = p) && HasPrefix s' prefix'
      end
  end.

(** [strings.Contains] *)
Fixpoint Contains (s substr : string) : bool :=
  HasPrefix s substr ||
  match s with
  | EmptyString => false
  | String _ s' => Contains s' substr
  end.

End Strings.

(** ** Constants and errors of the package *)

Definition cINTERACTIVE : string := "interactive".
Definition cEDITOR : string := "editor".
Definition cJSON : string := "json".

Definition errTooManyArgs : error := "too many arguments".
Definition errTooFewArgs : error := "too few arguments".
Definition errNotFound : error := "not found".
Definition errAborted : error := "aborted".

(** ** Small helpers *)

(** [reflect.DeepEqual(v, true)] for a context value. *)
Definition deepEqualTrue (v : option Value) : bool :=
  match v with
  | Some (VBool true) => true
  | _ => false
  end.

Definition isInteractive (w : World) : bool :=
  deepEqualTrue (Shell.Get cINTERACTIVE w).

Definition confirmDelete (name expectedValue : string) (w : World)
  : bool * World :=
  if negb (isInteractive w) then (true, w)
  else
    let w1 := Shell.Print ("Re-enter the " +:+ name +:+ " '" +:+ expectedValue
                           +:+ "' to delete: ") w in
    let '(value, w2) := Shell.ReadLine w1 in
    (bool_decide (value = expectedValue), w2).

Definition yesOrNo (w : World) : bool * World :=
  let '(val, w1) := Shell.ReadLine w in
  if bool_decide (val = "") || bool_decide (Strings.ToLower val = "y")
  then (true, w1)
  else (false, w1).

(** ** Control flow of a loop body

    A step of a loop body either goes on with a value or leaves the body
    (a [break] or a [return]); both carry the world reached. *)

Inductive Ctl (E A : Type) : Type :=
| Next (a : A) (w : World)
| Leave (e : E) (w : World).
Arguments Next {E A} a w.
Arguments Leave {E A} e w.

Definition Flow (E A : Type) : Type := World → Ctl E A.

Definition pure {E A} (a : A) : Flow E A := λ w, Next a w.

Definition bind {E A C} (k : A → Flow E C) (m : Flow E A) : Flow E C :=
  λ w, match m w with
       | Next a w' => k a w'
       | Leave e w' => Leave e w'
       end.

#[global] Instance Flow_ret {E} : MRet (Flow E) := @pure E.
#[global] Instance Flow_bind {E} : MBind (Flow E) := @bind E.

(** An effect on the world that gives no value. *)
Definition act {E} (f : World → World) : Flow E unit := λ w, Next tt (f w).

(** An operation of the world that gives a value. *)
Definition ask {E A} (f : World → A * World) : Flow E A :=
  λ w, let '(a, w') := f w in Next a w'.

Definition leave {E A} (e : E) : Flow E A := λ w, Leave e w.

(** ** editFile *)

(** What a call of [editFile] gives back: its two results, or a panic. *)
Inductive Outcome : Type :=
| Returns (patch : option PatchComment) (err : option error)
| Panics (msg : string).

(** How the body of the [for] loop is left. *)
Inductive LoopExit : Type :=
| Break (patchOps : list JsonPatchOperation)
| Return (o : Outcome).

(** What the operating system and the editor do during one pass of the loop:
    the result of each call, in the order of the calls. *)
Record Attempt : Type := mkAttempt {
  tempfile : string * option error;
  write_err : option error;
  close_err : option error;
  start_err : option error;
  edit : bytes → bytes;
  wait_err : option error;
  open_err : option error;
  read_err : option (nat * error);
  remove_err : option error;
  reclose_err : option error
}.

(** [if err != nil { c.Err(err); return nil, err }]; the paths that do not
    call [c.Err] pass [false]. *)
Definition bail (report : bool) (err : option error) : Flow LoopExit unit :=
  match err with
  | None => pure tt
  | Some e =>
      (if report then act (Shell.Err e) else pure tt) ;;
      leave (Return (Returns None (Some e)))
  end.

Definition createFile (name : string) (w : World) : World :=
  with_files (<[name := []]> (files w)) w.

Definition writeFile (name : string) (data : bytes) (w : World) : World :=
  with_files (<[name := data]> (files w)) w.

(** [os.StartProcess]: the editor runs on the file and leaves its text there. *)
Definition startProcess (path : string) (argv : list string) (name : string)
    (ed : bytes → bytes) (w : World) : World :=
  with_launches (launches w ++ [mkLaunch path argv (files w !! name)])
    (with_files (alter ed name (files w)) w).

(** [ioutil.ReadAll]: the text read, and the error that stopped the read. *)
Definition readAll (name : string) (fail : option (nat * error)) (w : World)
  : bytes * option error :=
  let content := default [] (files w !! name) in
  match fail with
  | None => (content, None)
  | Some (n, e) => (take n content, Some e)
  end.

Definition removeFile (name : string) (w : World) : World :=
  with_files (delete name (files w)) w.

Section EditFile.

(** [jsonpatch.CreatePatch], the diff engine of the library. *)
Variable CreatePatch : bytes → bytes → list JsonPatchOperation * option error.

(** The end of a pass: the diff of the original against the text read,
    and the prompt when there is none.  [Next] is [continue], with the
    values of [current] and [patchOps] for the next pass. *)
Definition validate (original newData : bytes)
  : Flow LoopExit (bytes * list JsonPatchOperation) :=
  let '(ops, err) := CreatePatch original newData in
  match err with
  | Some e =>
      (if bool_decide (e = "Invalid JSON Document")
       then act (Shell.Print "Unable to parse json. Make changes? [y]/n ")
       else act (Shell.Print ("Unable to create patch: " +:+ e +:+ nl)) ;;
            act (Shell.Print "Make changes? [y]/n ")) ;;
      yes ← ask yesOrNo;
      if yes : bool then pure (newData, [])
      else act (Shell.Println ["Edit aborted"]) ;; leave (Break [])
  | None => leave (Break ops)
  end.

(** One pass of the body of the loop. *)
Definition iteration (original current : bytes)
    (patchOps : list JsonPatchOperation) (editor editorPath : string)
    (a : Attempt) : Flow LoopExit (bytes * list JsonPatchOperation) :=
  let '(name, err) := tempfile a in
  bail true err ;;
  act (createFile name) ;;
  (if write_err a is None then act (writeFile name current) else pure tt) ;;
  bail true (write_err a) ;;
  bail true (close_err a) ;;
  bail false (start_err a) ;;
  act (startProcess editorPath [editor; name] name (edit a)) ;;
  bail true (wait_err a) ;;
  bail false (open_err a) ;;
  r ← (λ w, Next (readAll name (read_err a) w) w) : Flow LoopExit _;
  let '(newData, fileErr) := r : bytes * option error in
  (match remove_err a with
   | None => act (removeFile name)
   | Some e => act (Shell.Println ["Unable to delete temporary file: %s"; e])
   end) ;;
  (match fileErr with
   | None => pure tt
   | Some _ =>
       act (Shell.Println ["Unable to read file: %s"; showErr (remove_err a)]) ;;
       act (Shell.Print "Try again? [y]/n  ") ;;
       yes ← ask yesOrNo;
       if yes : bool then pure tt
       else act (Shell.Println ["Edit aborted"]) ;; leave (Break patchOps)
   end) ;;
  bail false (reclose_err a) ;;
  validate original newData.

(** The [for] loop.  It has no bound of its own: it runs as long as the
    script of editor runs lasts, and [None] says the script ended while
    the loop still wanted another run. *)
Fixpoint editLoop (original current : bytes)
    (patchOps : list JsonPatchOperation) (editor editorPath : string)
    (script : list Attempt) (w : World) : option (LoopExit * World) :=
  match script with
  | [] => None
  | a :: rest =>
      match iteration original current patchOps editor editorPath a w with
      | Next (current', patchOps') w' =>
          editLoop original current' patchOps' editor editorPath rest w'
      | Leave e w' => Some (e, w')
      end
  end.

(** The [range] loop over [patchOps].  The package is written in the Go
    that came before version 1.22, where a [for] statement has one instance
    of its variable: [op] is declared once and every pass assigns the next
    element to it.  [&op.Value] makes [op] escape, so it is the heap cell
    [l]; every pass stores the next operation there and appends an
    operation whose [Value] points into that cell. *)
Fixpoint rangeOps (l : loc) (patchOps : list JsonPatchOperation)
    (acc : list PatchOperation) (w : World) : list PatchOperation * World :=
  match patchOps with
  | [] => (acc, w)
  | op :: rest =>
      let w1 := with_heap (<[l := op]> (heap w)) w in
      rangeOps l rest
        (acc ++ [mkPatchOperation (Operation op) (jPath op) (Some l)]) w1
  end.

Definition zeroOp : JsonPatchOperation := mkJsonPatchOperation "" "" JNil.

(** What follows the loop. *)
Definition assemble (patchOps : list JsonPatchOperation) (w : World)
  : Outcome * World :=
  if bool_decide (length patchOps = 0) then (Returns None None, w)
  else
    let l := length (heap w) in
    let w1 := with_heap (heap w ++ [zeroOp]) w in
    let '(patch, w2) := rangeOps l patchOps [] w1 in
    let w3 := Shell.Print "Enter comment: " w2 in
    let '(comment, w4) := Shell.ReadLine w3 in
    (Returns (Some (mkPatchComment patch comment)) None, w4).

Definition editFile (original : bytes) (script : list Attempt) (w : World)
  : option (Outcome * World) :=
  match Shell.Get cEDITOR w with
  | Some (VString editor) =>
      let '(editorPathRaw, err) := lookup_editor w editor in
      match err with
      | Some e => Some (Returns None (Some e), Shell.Err e w)
      | None =>
          let editorPath :=
            Strings.TrimSpace (string_of_list_byte editorPathRaw) in
          match editLoop original original [] editor editorPath script w with
          | None => None
          | Some (Return o, w') => Some (o, w')
          | Some (Break patchOps, w') => Some (assemble patchOps w')
          end
      end
  | _ => Some (Panics "interface conversion: interface {} is not string", w)
  end.

End EditFile.

(** The part of [editFile] after the editor was resolved: the loop and what
    follows it, from any value of [current] and [patchOps]. *)
Definition editSession
    (CreatePatch : bytes → bytes → list JsonPatchOperation * option error)
    (original current : bytes) (patchOps : list JsonPatchOperation)
    (editor editorPath : string) (script : list Attempt) (w : World)
  : option (Outcome * World) :=
  match editLoop CreatePatch original current patchOps editor editorPath
                 script w with
  | None => None
  | Some (Return o, w') => Some (o, w')
  | Some (Break ops, w') => Some (assemble ops w')
  end.

(** What a reader of the returned [PatchComment] sees in an operation: the
    pointer [Value] followed into the heap. *)
Definition valueOf (w : World) (p : PatchOperation) : option JSON :=
  l ← Value_ p; op ← heap w !! l; Some (jValue op).

Definition seen (w : World) (p : PatchOperation)
  : string * string * option JSON :=
  (Op p, Path p, valueOf w p).

(** An operation of the diff engine with its fields taken over one by one. *)
Definition direct (op : JsonPatchOperation) : string * string * option JSON :=
  (Operation op, jPath op, Some (jValue op)).

(** ** The project commands *)

(** How a function body is left early: a [return] or a panic. *)
Inductive Exit (R : Type) : Type :=
| Ret (r : R)
| Panicked (msg : string).
Arguments Ret {R} r.
Arguments Panicked {R} msg.

(** A call: the value the body ends with is the value returned. *)
Definition call {R} (body : Flow (Exit R) R) (w : World) : Exit R * World :=
  match body w with
  | Next r w' => (Ret r, w')
  | Leave e w' => (e, w')
  end.

(** A call inside another body: a panic of the callee leaves the caller. *)
Definition invoke {R S} (body : Flow (Exit R) R) : Flow (Exit S) R :=
  λ w, match call body w with
       | (Ret r, w') => Next r w'
       | (Panicked msg, w') => Leave (Panicked msg) w'
       end.

Definition nilDereference : string :=
  "runtime error: invalid memory address or nil pointer dereference".
Definition indexOutOfRange : string := "runtime error: index out of range".

Module Api.

(** [api.Client.ProjectsApi.GetProjects(api.Auth)] *)
Definition GetProjects (w : World) : (list Project * option error) * World :=
  (projects_reply w (length (calls w)),
   with_calls (calls w ++ [GetProjects]) w).

(** [api.Client.ProjectsApi.DeleteProject(api.Auth, key)] *)
Definition DeleteProject (key : string) (w : World) : option error * World :=
  (delete_reply w (length (calls w)),
   with_calls (calls w ++ [DeleteProject key]) w).

End Api.

Definition listProjects (w : World) : (list Project * option error) * World :=
  let '((items, err), w') := Api.GetProjects w in
  match err with
  | Some e => (([], Some e), w')
  | None => ((items, None), w')
  end.

Definition listProjectKeys (w : World) : (list string * option error) * World :=
  let '((items, err), w') := Api.GetProjects w in
  match err with
  | Some e => (([], Some e), w')
  | None => ((map Key items, None), w')
  end.

(** The loop of [getProjectArg] that keeps the last project with the key. *)
Fixpoint findProject (projectKey : string) (projects : list Project)
    (foundProject : option Project) : option Project :=
  match projects with
  | [] => foundProject
  | project :: rest =>
      findProject projectKey rest
        (if bool_decide (Key project = projectKey) then Some project
         else foundProject)
  end.

Definition getProjectArg : Flow (Exit (option Project)) (option Project) :=
  r ← ask listProjects;
  let '(projects, err) := r : list Project * option error in
  (if err is Some e then act (Shell.Err e) ;; leave (Ret None) else pure tt) ;;
  cargs ← (λ w, Next (args w) w) : Flow _ (list string);
  match cargs with
  | projectKey :: _ =>
      let foundProject := findProject projectKey projects None in
      (if foundProject is None
       then act (Shell.Print ("Project " +:+ projectKey +:+ " does not exist"
                              +:+ nl))
       else pure tt) ;;
      pure foundProject
  | [] =>
      r ← ask listProjectKeys;
      let '(options, err) := r : list string * option error in
      (if err is Some e then act (Shell.Err e) ;; leave (Ret None) else pure tt) ;;
      choice ← ask (Shell.MultiChoice options "Choose a project");
      if bool_decide (0 ≤ choice < Z.of_nat (length projects))%Z
      then pure (projects !! Z.to_nat choice)
      else leave (Panicked indexOutOfRange)
  end.

Definition deleteProject : Flow (Exit unit) unit :=
  project ← invoke getProjectArg;
  (if project is Some _ then leave (Ret tt) else pure tt) ;;
  key ← (if project is Some p then pure (Key p)
         else leave (Panicked nilDereference)) : Flow _ string;
  _ ← ask (confirmDelete "project key" key);
  match project with
  | Some p =>
      err ← ask (Api.DeleteProject (Key p));
      match err with
      | Some e => act (Shell.Err e) ;; leave (Ret tt)
      | None => act (Shell.Print ("Deleted project " +:+ Key p +:+ nl))
      end
  | None => pure tt
  end.

Definition isDelete (c : ApiCall) : bool :=
  match c with
  | DeleteProject _ => true
  | _ => false
  end.

(** ** A small diff engine and a world, for concrete runs

    [CreatePatch] belongs to a library.  For the runs below a small engine
    stands in for it: it reads a JSON array of one-digit numbers, with any
    white space between the tokens, and compares two arrays item by item. *)
Module Fake.

Definition isDigit (c : ascii) : bool :=
  let n := nat_of_ascii c in (48 <=? n)%nat && (n <=? 57)%nat.

(** After the opening bracket.  [want] says that an item must come next. *)
Fixpoint items (s : string) (want : bool) (acc : list string)
  : option (list string) :=
  match s with
  | EmptyString => None
  | String c rest =>
      if Ascii.is_space c then items rest want acc
      else if isDigit c then
        if want then items rest false (acc ++ [String c EmptyString])
        else None
      else if bool_decide (c = ","%char) then
        if want then None else items rest true acc
      else if bool_decide (c = "]"%char) then
        if want && negb (bool_decide (acc = [])) then None
        else if bool_decide (Strings.trimLeft rest = "") then Some acc
        else None
      else None
  end.

Definition parse (data : bytes) : option (list string) :=
  match Strings.trimLeft (string_of_list_byte data) with
  | String "["%char rest => items rest true []
  | _ => None
  end.

Definition pathOf (i : nat) : string := "/" +:+ pretty i.

Fixpoint adds (i : nat) (b : list string) : list JsonPatchOperation :=
  match b with
  | [] => []
  | y :: b' => mkJsonPatchOperation "add" (pathOf i) (JNumber y) :: adds (S i) b'
  end.

Fixpoint removes (i : nat) (a : list string) : list JsonPatchOperation :=
  match a with
  | [] => []
  | _ :: a' => removes (S i) a' ++ [mkJsonPatchOperation "remove" (pathOf i) JNil]
  end.

Fixpoint diff (i : nat) (a b : list string) : list JsonPatchOperation :=
  match a, b with
  | [], _ => adds i b
  | _, [] => removes i a
  | x :: a', y :: b' =>
      (if bool_decide (x = y) then []
       else [mkJsonPatchOperation "replace" (pathOf i) (JNumber y)])
      ++ diff (S i) a' b'
  end.

Definition CreatePatch (a b : bytes) : list JsonPatchOperation * option error :=
  match parse a, parse b with
  | Some x, Some y => (diff 0 x y, None)
  | _, _ => ([], Some "Invalid JSON Document")
  end.

(** Two texts are the same document when they parse to the same array. *)
Definition same (a b : bytes) : Prop :=
  ∃ x, parse a = Some x ∧ parse b = Some x.

(** A shell whose editor is [vi], found at [/usr/bin/vi]. *)
Definition world (input : list string) : World :=
  mkWorld {[ cEDITOR := VString "vi" ]} [] input [] [] []
          (λ _, (B ("/usr/bin/vi" +:+ nl), None)) ∅ []
          (λ _, ([], None)) (λ _, None) [] [].

(** An editor run in which every call succeeds and the user leaves [text]
    in the scratch file [name]. *)
Definition saves (name : string) (text : string) : Attempt :=
  mkAttempt (name, None) None None None (λ _, B text) None None None None None.

End Fake.

(** ** Completion *)

Fixpoint withPrefixLoop (keys : list string) (prefix : string)
    (completions : list string) : list string :=
  match keys with
  | [] => completions
  | key :: rest =>
      withPrefixLoop rest prefix
        (if Strings.HasPrefix key prefix then completions ++ [key]
         else completions)
  end.

Definition withPrefix (keys : list string) (prefix : string) : list string :=
  withPrefixLoop keys prefix [].

Definition toPrefix (args : list string) : string :=
  match args with
  | [] => ""
  | first :: _ => first
  end.

Definition firstOrEmpty (args : list string) : string :=
  match args with
  | [] => ""
  | first :: _ => first
  end.

Definition doubleQuote : string := String (ascii_of_nat 34) EmptyString.

(** [len(args) == 0 || strings.HasPrefix(key, args[0])] *)
Definition matchesArgs (args : list string) (key : string) : bool :=
  match args with
  | [] => true
  | first :: _ => Strings.HasPrefix key first
  end.

(** The loop of the completer that [makeCompleter] builds. *)
Fixpoint completerLoop (args keys completions : list string) : list string :=
  match keys with
  | [] => completions
  | key :: rest =>
      completerLoop args rest
        (if matchesArgs args key
         then completions ++
              [if Strings.Contains key " "
               then doubleQuote +:+ key +:+ doubleQuote else key]
         else completions)
  end.

(** A completer is a function of the arguments typed so far; what it
    fetches, it fetches from the world. *)
Definition Completer : Type := list string → World → list string * World.

Definition makeCompleter (fetch : World → list string * World) : Completer :=
  λ args w,
    if bool_decide (1 < length args) then ([], w)
    else
      let '(keys, w') := fetch w in
      (completerLoop args keys [], w').

Fixpoint nonFinalLoop (original completions : list string) : list string :=
  match original with
  | [] => completions
  | s :: rest => nonFinalLoop rest (completions ++ [s +:+ " "])
  end.

Definition nonFinalCompleter (completer : Completer) : Completer :=
  λ args w,
    let '(original, w') := completer args w in
    (nonFinalLoop original [], w').

Definition ifNotBlank (s defaultValue : string) : string :=
  if bool_decide (Strings.TrimSpace s = "") then defaultValue else s.

(** ** The session

    The state of the process beside the world of [editFile]: the package
    variable [jsonMode], the current project and environment of package
    [api], the prompt and the pager of the shell, and what the service
    answers to the calls that create and fetch a project. *)
Record Session : Type := mkSession {
  world : World;
  jsonMode : option bool;
  CurrentProject : string;
  CurrentEnvironment : string;
  prompt : string;
  paged : list string;
  pager_reply : string → option error;
  post_reply : nat → option error;
  get_reply : nat → Project * option error
}.

Definition set_world (w : World) (s : Session) : Session :=
  mkSession w (jsonMode s) (CurrentProject s) (CurrentEnvironment s)
            (prompt s) (paged s) (pager_reply s) (post_reply s) (get_reply s).

Definition on_world (f : World → World) (s : Session) : Session :=
  set_world (f (world s)) s.

Definition set_jsonMode (m : option bool) (s : Session) : Session :=
  mkSession (world s) m (CurrentProject s) (CurrentEnvironment s)
            (prompt s) (paged s) (pager_reply s) (post_reply s) (get_reply s).

Definition set_selection (project environment : string) (s : Session)
  : Session :=
  mkSession (world s) (jsonMode s) project environment
            (prompt s) (paged s) (pager_reply s) (post_reply s) (get_reply s).

Definition SetPrompt (text : string) (s : Session) : Session :=
  mkSession (world s) (jsonMode s) (CurrentProject s) (CurrentEnvironment s)
            text (paged s) (pager_reply s) (post_reply s) (get_reply s).

(** [c.ShowPaged(text)]: the text goes to the pager, which may fail. *)
Definition ShowPaged (text : string) (s : Session) : option error * Session :=
  (pager_reply s text,
   mkSession (world s) (jsonMode s) (CurrentProject s) (CurrentEnvironment s)
             (prompt s) (paged s ++ [text]) (pager_reply s) (post_reply s)
             (get_reply s)).

(** [c.Err(err)] with an error that may be nil: a nil error records
    nothing. *)
Definition ErrIf (err : option error) (w : World) : World :=
  match err with
  | Some e => Shell.Err e w
  | None => w
  end.

(** ** Rendering *)

Definition setJSON (val : bool) (s : Session) : Session :=
  set_jsonMode (Some val) s.

Definition renderJSON (s : Session) : bool :=
  match jsonMode s with
  | Some mode => mode
  | None => deepEqualTrue (Shell.Get cJSON (world s))
  end.

Definition renderPagedTable (buf : bytes) (s : Session) : Session :=
  if bool_decide (1000 < length buf)
  then
    let '(err, s') := ShowPaged (string_of_list_byte buf) s in
    on_world (ErrIf err) s'
  else on_world (Shell.Print (string_of_list_byte buf)) s.

(** ** The other project commands *)

Definition switchToProject (project : Project) (s : Session) : Session :=
  let s1 := on_world (Shell.Print ("Switching to project " +:+ Key project
                                   +:+ nl)) s in
  let s2 := set_selection (Key project) (CurrentEnvironment s1) s1 in
  let s3 :=
    match Environments project with
    | [] =>
        set_selection (CurrentProject s2) ""
          (on_world (Shell.Println ["This project has no environments"]) s2)
    | first :: _ =>
        let environmentKey := eKey first in
        set_selection (CurrentProject s2) environmentKey
          (on_world (Shell.Print ("Switching to environment " +:+ environmentKey
                                  +:+ nl)) s2)
    end in
  SetPrompt (CurrentProject s3 +:+ "/" +:+ CurrentEnvironment s3 +:+ "> ") s3.

Fixpoint projectCompleterLoop (args keys completions : list string)
  : list string :=
  match keys with
  | [] => completions
  | key :: rest =>
      projectCompleterLoop args rest
        (if matchesArgs args key then completions ++ [key] else completions)
  end.

Definition projectCompleter : Completer :=
  λ args w,
    let '((keys, err), w') := listProjectKeys w in
    match err with
    | Some _ => ([], w')
    | None => (projectCompleterLoop args keys [], w')
    end.

(** [api.Client.ProjectsApi.PostProject(api.Auth, body)] *)
Definition apiPostProject (key name : string) (s : Session)
  : option error * Session :=
  (post_reply s (length (calls (world s))),
   on_world (λ w, with_calls (calls w ++ [PostProject key name]) w) s).

(** [api.Client.ProjectsApi.GetProject(api.Auth, key)] *)
Definition apiGetProject (key : string) (s : Session)
  : (Project * option error) * Session :=
  (get_reply s (length (calls (world s))),
   on_world (λ w, with_calls (calls w ++ [GetProject key]) w) s).

Definition createProject (s : Session) : Session :=
  let fail (msg : error) := on_world (Shell.Err msg) s in
  let create (key name : string) :=
    let '(err, s1) := apiPostProject key name s in
    match err with
    | Some e => on_world (Shell.Err e) s1
    | None =>
        let s2 := on_world (Shell.Print ("Created project " +:+ key +:+ nl)) s1 in
        let '((project, err), s3) := apiGetProject key s2 in
        match err with
        | Some e => on_world (Shell.Err e) s3
        | None => switchToProject project s3
        end
    end in
  match args (world s) with
  | [] => fail "please supply at least a key for the new environment"
  | [key] => create key key
  | [key; name] => create key name
  | _ => fail "too many arguments.  Expected arguments are: key [name]."
  end.

(** The command [switch] that [AddProjectCommands] registers. *)
Definition switchCommand (s : Session) : Exit unit * Session :=
  match call getProjectArg (world s) with
  | (Ret (Some foundProject), w') =>
      (Ret tt, switchToProject foundProject (set_world w' s))
  | (Ret None, w') => (Ret tt, set_world w' s)
  | (Panicked msg, w') => (Panicked msg, set_world w' s)
  end.

(** ** Notions used in the statements *)

(** A line that counts as yes, and one that counts as no. *)
Definition isYes (line : string) : Prop :=
  line = "" ∨ Strings.ToLower line = "y".
Definition isNo (line : string) : Prop :=
  line ≠ "" ∧ Strings.ToLower line ≠ "y".

(** The world after the prompt that follows a failed diff. *)
Definition retryPrompt (e : error) (w : World) : World :=
  if bool_decide (e = "Invalid JSON Document")
  then Shell.Print "Unable to parse json. Make changes? [y]/n " w
  else Shell.Print "Make changes? [y]/n "
         (Shell.Print ("Unable to create patch: " +:+ e +:+ nl) w).

(** An editor run in which no call fails that would end [editFile]. *)
Definition quiet (a : Attempt) : Prop :=
  (tempfile a).2 = None ∧ write_err a = None ∧ close_err a = None ∧
  start_err a = None ∧ wait_err a = None ∧ open_err a = None ∧
  reclose_err a = None.

(** The world after such a run, up to the removal of the scratch file. *)
Definition edited (current : bytes) (editor editorPath : string) (a : Attempt)
    (w : World) : World :=
  let name := (tempfile a).1 in
  let w1 := startProcess editorPath [editor; name] name (edit a)
              (writeFile name current (createFile name w)) in
  match remove_err a with
  | None => removeFile name w1
  | Some e => Shell.Println ["Unable to delete temporary file: %s"; e] w1
  end.

(** An editor run that leaves a text with no diff against the original,
    whatever text it started from. *)
Definition invalidEdit
    (CreatePatch : bytes → bytes → list JsonPatchOperation * option error)
    (original : bytes) (a : Attempt) : Prop :=
  quiet a ∧ read_err a = None ∧
  ∀ seed, (CreatePatch original (edit a seed)).2 ≠ None.

(** The operations as the [range] loop appends them: every [Value] is the
    address of the one loop variable. *)
Definition patchOf (l : loc) (patchOps : list JsonPatchOperation)
  : list PatchOperation :=
  map (λ op, mkPatchOperation (Operation op) (jPath op) (Some l)) patchOps.

(** The heap after the loop variable at [l] took each operation in turn. *)
Definition heapAfter (l : loc) (patchOps : list JsonPatchOperation)
    (h : list JsonPatchOperation) : list JsonPatchOperation :=
  foldl (λ h op, <[l := op]> h) h patchOps.

(** [editFile] ended with an error. *)
Definition endsWithError (r : option (Outcome * World)) : Prop :=
  ∃ e w', r = Some (Returns None (Some e), w').

(** ** Worlds and editor runs for concrete runs *)

(** A session that asks before it deletes. *)
Definition asking (input : list string) : World :=
  mkWorld {[ cINTERACTIVE := VBool true ]} [] input [] [] []
          (λ _, ([], Some "not found")) ∅ [] (λ _, ([], None)) (λ _, None) [] [].

Definition demo : Project := mkProject "demo" "Demo" [mkEnvironment "test"].

(** A service with the one project [demo]. *)
Definition serving (cargs : list string) : World :=
  mkWorld {[ cINTERACTIVE := VBool true ]} cargs ["demo"] [] [] []
          (λ _, ([], Some "not found")) ∅ [] (λ _, ([demo], None)) (λ _, None)
          [] [].

(** A shell whose editor is not on the search path. *)
Definition lost : World :=
  mkWorld {[ cEDITOR := VString "vi" ]} [] ["y"] [] [] []
          (λ _, ([], Some "exit status 1")) ∅ []
          (λ _, ([], None)) (λ _, None) [] [].

(** An editor run in which the editor does not start. *)
Definition unstarted (name : string) : Attempt :=
  mkAttempt (name, None) None None (Some "permission denied") (λ text, text)
            None None None None None.

(** An editor run in which the wait for the editor fails. *)
Definition unawaited (name : string) : Attempt :=
  mkAttempt (name, None) None None None (λ text, text)
            (Some "wait: no child processes") None None None None.

(** An editor run after which the read of the scratch file stops with an
    error, [n] bytes into the text that the user left. *)
Definition cut (name text : string) (n : nat) : Attempt :=
  mkAttempt (name, None) None None None (λ _, B text) None None
            (Some (n, "read /tmp/ldc: input/output error")) None None.

(** ** Notions used in the further statements *)

(** [key] begins with [prefix]. *)
Definition beginsWith (key prefix : string) : Prop :=
  ∃ rest, key = prefix +:+ rest.

(** A key as a completion shows it: between double quotes when it has a
    space. *)
Definition shown (key : string) : string :=
  if Strings.Contains key " " then doubleQuote +:+ key +:+ doubleQuote else key.


(** The prompt names the current project and environment. *)
Definition consistent (s : Session) : Prop :=
  prompt s = CurrentProject s +:+ "/" +:+ CurrentEnvironment s +:+ "> ".

(** A fetch of keys that are at hand. *)
Definition fetching (keys : list string) (w : World) : list string * World :=
  (keys, w).

(** A session around a world, with a service that accepts every project
    and gives it the environments [production] and [test]. *)
Definition session (w : World) : Session :=
  mkSession w None "" "" "> " [] (λ _, None) (λ _, None)
            (λ _, (mkProject "demo" "Demo"
                     [mkEnvironment "production"; mkEnvironment "test"], None)).

(** Two worlds with the same input left and the same heap. *)
Definition agree (w1 w2 : World) : Prop :=
  stdin w1 = stdin w2 ∧ heap w1 = heap w2.

(** Two steps that end alike, in worlds that agree. *)
Definition alike {E A} (c1 c2 : Ctl E A) : Prop :=
  match c1, c2 with
  | Next x w1, Next y w2 => x = y ∧ agree w1 w2
  | Leave x w1, Leave y w2 => x = y ∧ agree w1 w2
  | _, _ => False
  end.

(** The editor run [a] with another result for the removal of the scratch
    file. *)
Definition withRemoval (r : option error) (a : Attempt) : Attempt :=
  mkAttempt (tempfile a) (write_err a) (close_err a) (start_err a) (edit a)
            (wait_err a) (open_err a) (read_err a) r (reclose_err a).

(** The world a step ends in. *)
Definition worldOf {E A} (c : Ctl E A) : World :=
  match c with
  | Next _ w => w
  | Leave _ w => w
  end.

(** Two editor runs that differ at most in the result of the removal of
    the scratch file. *)
Definition sameButRemoval (a b : Attempt) : Prop :=
  ∃ r, b = withRemoval r a.

(** The first error among the calls of a pass between the creation of the
    scratch file and the read of it. *)
Definition firstFatal (a : Attempt) : option error :=
  match write_err a, close_err a, start_err a, wait_err a, open_err a with
  | Some e, _, _, _, _ => Some e
  | None, Some e, _, _, _ => Some e
  | None, None, Some e, _, _ => Some e
  | None, None, None, Some e, _ => Some e
  | None, None, None, None, oe => oe
  end.

(** The warning for a removal that failed. *)
Definition removalWarning (a : Attempt) : list string :=
  match remove_err a with
  | None => []
  | Some e => ["Unable to delete temporary file: %s " +:+ e +:+ nl]
  end.

(** An editor run in which every call up to the reopening of the scratch
    file succeeds. *)
Definition readable (a : Attempt) : Prop :=
  (tempfile a).2 = None ∧ write_err a = None ∧ close_err a = None ∧
  start_err a = None ∧ wait_err a = None ∧ open_err a = None.

(** An editor run for which no scratch file can be created. *)
Definition fileless : Attempt :=
  mkAttempt ("", Some "no space left on device") None None None (λ text, text)
            None None None None None.

(** An editor run after which the scratch file cannot be closed. *)
Definition unclosed (name text : string) : Attempt :=
  mkAttempt (name, None) None None None (λ _, B text) None None None None
            (Some "close: bad file descriptor").

(** A service with the projects [demo] and [other]; the user is to pick. *)
Definition choosing (pick : Z) : World :=
  mkWorld ∅ [] [] [] [] [pick] (λ _, ([], Some "not found")) ∅ []
          (λ _, ([demo; mkProject "other" "Other" []], None)) (λ _, None)
          [] [].

(** A service that is down. *)
Definition down (cargs : list string) : World :=
  mkWorld ∅ cargs [] [] [] [0%Z] (λ _, ([], Some "not found")) ∅ []
          (λ _, ([], Some "503 Service Unavailable")) (λ _, None) [] [].

(** A service that goes down after one listing. *)
Definition failing : World :=
  mkWorld ∅ [] [] [] [] [0%Z] (λ _, ([], Some "not found")) ∅ []
          (λ n, match n with
                | 0 => ([demo], None)
                | _ => ([], Some "503 Service Unavailable")
                end) (λ _, None) [] [].

(** * Properties *)

(** ** Concrete runs *)

Example fake_replace :
  Fake.CreatePatch (B "[1]") (B " [ 2 ]") =
  ([mkJsonPatchOperation "replace" "/0" (JNumber "2")], None).
Proof. reflexivity. Qed.

Example fake_invalid :
  Fake.CreatePatch (B "[1]") (B "[1,") = ([], Some "Invalid JSON Document").
Proof. reflexivity. Qed.

Example editFile_replace :
  fst <$> editFile Fake.CreatePatch (B "[1]") [Fake.saves "/tmp/ldc1" "[2]"]
            (Fake.world ["fixed typo"]) =
  Some (Returns (Some (mkPatchComment [mkPatchOperation "replace" "/0" (Some 0)]
                                      "fixed typo")) None).
Proof. reflexivity. Qed.

(** ** Console prompts *)

Lemma lower_y (c : ascii) :
  Strings.lower c = "y"%char ↔ c = "y"%char ∨ c = "Y"%char.
Proof.
  destruct c as [[] [] [] [] [] [] [] []]; vm_compute;
    split; intros H; try discriminate H; try (destruct H as [H|H]; discriminate H);
    auto.
Qed.

Lemma ToLower_y (s : string) :
  Strings.ToLower s = "y" ↔ s = "y" ∨ s = "Y".
Proof.
  destruct s as [|c [|c' r]]; simpl.
  - split; [discriminate | intros [H|H]; discriminate].
  - split.
    + intros H. injection H as H. apply lower_y in H as [-> | ->]; auto.
    + intros [H|H]; injection H as ->; reflexivity.
  - split; [discriminate | intros [H|H]; discriminate].
Qed.

Lemma ReadLine_stdin (w : World) (line : string) (rest : list string) :
  stdin w = line :: rest → Shell.ReadLine w = (line, with_stdin rest w).
Proof. unfold Shell.ReadLine. intros ->. reflexivity. Qed.

Lemma yesOrNo_unfold (w : World) :
  yesOrNo w =
  (bool_decide ((Shell.ReadLine w).1 = "")
   || bool_decide (Strings.ToLower (Shell.ReadLine w).1 = "y"),
   (Shell.ReadLine w).2).
Proof.
  unfold yesOrNo. destruct (Shell.ReadLine w) as [val w1]; simpl.
  destruct (bool_decide (val = "") || bool_decide (Strings.ToLower val = "y"));
    reflexivity.
Qed.

Lemma yesOrNo_true (w : World) :
  (yesOrNo w).1 = true ↔
  (Shell.ReadLine w).1 = "" ∨ Strings.ToLower (Shell.ReadLine w).1 = "y".
Proof.
  rewrite yesOrNo_unfold. simpl.
  rewrite orb_true_iff, !bool_decide_eq_true. reflexivity.
Qed.

Lemma yesOrNo_false (w : World) :
  (yesOrNo w).1 = false ↔
  (Shell.ReadLine w).1 ≠ "" ∧ Strings.ToLower (Shell.ReadLine w).1 ≠ "y".
Proof.
  rewrite yesOrNo_unfold. simpl.
  rewrite orb_false_iff, !bool_decide_eq_false. reflexivity.
Qed.

(** C8.  At a yes/no prompt the line read counts as yes exactly when it is
    empty or its lower case is "y", and as no exactly when it is not empty
    and its lower case is not "y"; the prompt takes that one line. *)
Theorem yesOrNo_yes_iff (w : World) :
  let line := (Shell.ReadLine w).1 in
  ((yesOrNo w).1 = true ↔ line = "" ∨ Strings.ToLower line = "y") ∧
  ((yesOrNo w).1 = false ↔ line ≠ "" ∧ Strings.ToLower line ≠ "y") ∧
  (yesOrNo w).2 = (Shell.ReadLine w).2.
Proof.
  intros line. subst line.
  split; [apply yesOrNo_true | split; [apply yesOrNo_false|]].
  rewrite yesOrNo_unfold. reflexivity.
Qed.

(** The lines that count as yes are the empty line, "y" and "Y". *)
Lemma yesOrNo_yes_lines (w : World) :
  (yesOrNo w).1 = true ↔
  (Shell.ReadLine w).1 = "" ∨ (Shell.ReadLine w).1 = "y" ∨ (Shell.ReadLine w).1 = "Y".
Proof. rewrite yesOrNo_true, ToLower_y. reflexivity. Qed.

Example yesOrNo_blank : (yesOrNo (Fake.world [""])).1 = true.
Proof. reflexivity. Qed.
Example yesOrNo_Y : (yesOrNo (Fake.world ["Y"])).1 = true.
Proof. reflexivity. Qed.
Example yesOrNo_yes_word : (yesOrNo (Fake.world ["yes"])).1 = false.
Proof. reflexivity. Qed.
Example yesOrNo_n : (yesOrNo (Fake.world ["n"])).1 = false.
Proof. reflexivity. Qed.

(** ** confirmDelete *)

Lemma isInteractive_true (w : World) :
  isInteractive w = true ↔ Shell.Get cINTERACTIVE w = Some (VBool true).
Proof.
  unfold isInteractive, deepEqualTrue.
  destruct (Shell.Get cINTERACTIVE w) as [[[]| |]|]; split; congruence.
Qed.

(** C10.  When the [interactive] value of the session is not the boolean
    true, [confirmDelete] gives true and leaves the console as it was:
    nothing is printed and nothing is read.  When it is true, the result is
    true exactly when the line read equals the expected value. *)
Theorem confirmDelete_spec (name expectedValue : string) (w : World) :
  (Shell.Get cINTERACTIVE w ≠ Some (VBool true) →
   confirmDelete name expectedValue w = (true, w)) ∧
  (Shell.Get cINTERACTIVE w = Some (VBool true) →
   let prompted :=
     Shell.Print ("Re-enter the " +:+ name +:+ " '" +:+ expectedValue
                  +:+ "' to delete: ") w in
   ((confirmDelete name expectedValue w).1 = true ↔
    (Shell.ReadLine prompted).1 = expectedValue) ∧
   (confirmDelete name expectedValue w).2 = (Shell.ReadLine prompted).2).
Proof.
  unfold confirmDelete. split.
  - intros H. rewrite <- isInteractive_true in H.
    destruct (isInteractive w); [congruence | reflexivity].
  - intros H. apply isInteractive_true in H. rewrite H. simpl.
    destruct (Shell.ReadLine _) as [value w2]. simpl.
    rewrite bool_decide_eq_true. split; reflexivity.
Qed.

Lemma confirmDelete_spec_witness :
  confirmDelete "project key" "demo" (Fake.world ["other"])
    = (true, Fake.world ["other"]) ∧
  ((confirmDelete "project key" "demo" (asking ["demo"])).1 = true ↔
   "demo" = "demo").
Proof.
  split.
  - apply (proj1 (confirmDelete_spec "project key" "demo" (Fake.world ["other"]))).
    vm_compute. discriminate.
  - apply (proj2 (confirmDelete_spec "project key" "demo" (asking ["demo"]))).
    vm_compute. reflexivity.
Defined.

Example confirmDelete_case_sensitive :
  (confirmDelete "project key" "demo" (asking ["Demo"])).1 = false.
Proof. reflexivity. Qed.

Example confirmDelete_string_flag :
  confirmDelete "project key" "demo"
    (mkWorld {[ cINTERACTIVE := VString "true" ]} [] ["x"] [] [] []
             (λ _, ([], None)) ∅ [] (λ _, ([], None)) (λ _, None) [] [])
  = (true,
     mkWorld {[ cINTERACTIVE := VString "true" ]} [] ["x"] [] [] []
             (λ _, ([], None)) ∅ [] (λ _, ([], None)) (λ _, None) [] []).
Proof. reflexivity. Qed.

(** ** deleteProject *)

Lemma GetProjects_calls (w : World) :
  calls (Api.GetProjects w).2 = calls w ++ [GetProjects].
Proof. reflexivity. Qed.

Lemma listProjects_calls (w : World) :
  calls (listProjects w).2 = calls w ++ [GetProjects].
Proof.
  unfold listProjects. destruct (Api.GetProjects w) as [[items err] w'] eqn:E.
  assert (calls w' = calls w ++ [GetProjects]) as <-
    by (rewrite <- GetProjects_calls, E; reflexivity).
  destruct err; reflexivity.
Qed.

Lemma listProjectKeys_calls (w : World) :
  calls (listProjectKeys w).2 = calls w ++ [GetProjects].
Proof.
  unfold listProjectKeys. destruct (Api.GetProjects w) as [[items err] w'] eqn:E.
  assert (calls w' = calls w ++ [GetProjects]) as <-
    by (rewrite <- GetProjects_calls, E; reflexivity).
  destruct err; reflexivity.
Qed.

(** The lookup only lists projects: once, or twice when it has to offer a
    choice. *)
Lemma getProjectArg_calls (w : World) :
  ∃ n, calls (call getProjectArg w).2 = calls w ++ replicate n GetProjects.
Proof.
  unfold call, getProjectArg, mbind, Flow_bind, bind, ask, act, leave, pure.
  pose proof (listProjects_calls w) as H1.
  destruct (listProjects w) as [[projects err] w1]. simpl in H1.
  destruct err as [e|]; simpl.
  { exists 1. exact H1. }
  destruct (args w1) as [|projectKey more] eqn:Ea.
  - pose proof (listProjectKeys_calls w1) as H2.
    destruct (listProjectKeys w1) as [[options err] w2]. simpl in H2.
    assert (calls w2 = calls w ++ replicate 2 GetProjects) as H3
      by (rewrite H2, H1, <- app_assoc; reflexivity).
    destruct err as [e|]; simpl.
    { exists 2. exact H3. }
    unfold Shell.MultiChoice.
    destruct (picks w2) as [|k ks]; simpl;
      try case_bool_decide; simpl; exists 2; exact H3.
  - destruct (findProject projectKey projects None); simpl;
      exists 1; exact H1.
Qed.

(** C9.  [deleteProject] never asks the service to delete: the calls it
    adds are listings only.  When the lookup gives a project the command
    returns at once, in the world the lookup left; when the lookup gives
    nil the command panics on [project.Key], before it confirms or
    deletes; a panic of the lookup is passed on. *)
Theorem deleteProject_never_deletes (w : World) :
  (∃ n, calls (call deleteProject w).2 = calls w ++ replicate n GetProjects) ∧
  List.filter isDelete (calls (call deleteProject w).2)
    = List.filter isDelete (calls w) ∧
  call deleteProject w =
    match call getProjectArg w with
    | (Ret (Some _), w1) => (Ret tt, w1)
    | (Ret None, w1) => (Panicked nilDereference, w1)
    | (Panicked msg, w1) => (Panicked msg, w1)
    end.
Proof.
  assert (call deleteProject w =
          match call getProjectArg w with
          | (Ret (Some _), w1) => (Ret tt, w1)
          | (Ret None, w1) => (Panicked nilDereference, w1)
          | (Panicked msg, w1) => (Panicked msg, w1)
          end) as Hrun.
  { unfold deleteProject, invoke, mbind, Flow_bind, bind, leave, pure.
    unfold call at 1.
    destruct (call getProjectArg w) as [[[p|]|msg] w1]; reflexivity. }
  assert (∃ n, calls (call deleteProject w).2 = calls w ++ replicate n GetProjects)
    as Hcalls.
  { destruct (getProjectArg_calls w) as [n Hn]. exists n.
    rewrite Hrun.
    destruct (call getProjectArg w) as [[[p|]|msg] w1]; exact Hn. }
  split; [exact Hcalls|]. split; [|exact Hrun].
  destruct Hcalls as [n ->]. rewrite List.filter_app.
  replace (List.filter isDelete (replicate n GetProjects)) with (@nil ApiCall).
  - apply app_nil_r.
  - induction n as [|n IH]; [reflexivity | exact IH].
Qed.

Example deleteProject_found :
  (call deleteProject (serving ["demo"])).1 = Ret tt ∧
  calls (call deleteProject (serving ["demo"])).2 = [GetProjects] ∧
  stdin (call deleteProject (serving ["demo"])).2 = ["demo"].
Proof. repeat split; reflexivity. Qed.

Example deleteProject_missing :
  (call deleteProject (serving ["other"])).1 = Panicked nilDereference ∧
  calls (call deleteProject (serving ["other"])).2 = [GetProjects].
Proof. repeat split; reflexivity. Qed.

(** ** editFile: one pass of the loop *)

Ltac flow :=
  unfold mbind, Flow_bind, bind, mret, Flow_ret, bail, act, ask, leave, pure.

Lemma retryPrompt_stdin (e : error) (w : World) :
  stdin (retryPrompt e w) = stdin w.
Proof. unfold retryPrompt. case_bool_decide; reflexivity. Qed.

Lemma retryPrompt_heap (e : error) (w : World) :
  heap (retryPrompt e w) = heap w.
Proof. unfold retryPrompt. case_bool_decide; reflexivity. Qed.

Lemma retryPrompt_files (e : error) (w : World) :
  files (retryPrompt e w) = files w.
Proof. unfold retryPrompt. case_bool_decide; reflexivity. Qed.

Lemma retryPrompt_launches (e : error) (w : World) :
  launches (retryPrompt e w) = launches w.
Proof. unfold retryPrompt. case_bool_decide; reflexivity. Qed.

Lemma yesOrNo_yes (w : World) (line : string) (more : list string) :
  stdin w = line :: more → isYes line → yesOrNo w = (true, with_stdin more w).
Proof.
  intros Hin Hyes. rewrite yesOrNo_unfold, (ReadLine_stdin _ _ _ Hin). simpl.
  f_equal. apply orb_true_iff. rewrite !bool_decide_eq_true. exact Hyes.
Qed.

Lemma yesOrNo_no (w : World) (line : string) (more : list string) :
  stdin w = line :: more → isNo line → yesOrNo w = (false, with_stdin more w).
Proof.
  intros Hin Hno. rewrite yesOrNo_unfold, (ReadLine_stdin _ _ _ Hin). simpl.
  f_equal. apply orb_false_iff. rewrite !bool_decide_eq_false. exact Hno.
Qed.

Section Validate.

Variable CreatePatch : bytes → bytes → list JsonPatchOperation * option error.

Lemma validate_changed original newData ops w :
  CreatePatch original newData = (ops, None) →
  validate CreatePatch original newData w = Leave (Break ops) w.
Proof. unfold validate. intros ->. reflexivity. Qed.

Lemma validate_failed original newData ops e w :
  CreatePatch original newData = (ops, Some e) →
  validate CreatePatch original newData w =
  let '(yes, w') := yesOrNo (retryPrompt e w) in
  if yes : bool then Next (newData, []) w'
  else Leave (Break []) (Shell.Println ["Edit aborted"] w').
Proof.
  unfold validate, retryPrompt. intros ->. flow.
  case_bool_decide; destruct (yesOrNo _) as [[] w']; reflexivity.
Qed.

Lemma validate_yes original newData ops e w line more :
  CreatePatch original newData = (ops, Some e) →
  stdin w = line :: more → isYes line →
  validate CreatePatch original newData w =
  Next (newData, []) (with_stdin more (retryPrompt e w)).
Proof.
  intros Hcp Hin Hyes. rewrite (validate_failed _ _ _ _ _ Hcp).
  rewrite (yesOrNo_yes _ line more); [reflexivity | | exact Hyes].
  rewrite retryPrompt_stdin. exact Hin.
Qed.

Lemma validate_no original newData ops e w line more :
  CreatePatch original newData = (ops, Some e) →
  stdin w = line :: more → isNo line →
  validate CreatePatch original newData w =
  Leave (Break [])
    (Shell.Println ["Edit aborted"] (with_stdin more (retryPrompt e w))).
Proof.
  intros Hcp Hin Hno. rewrite (validate_failed _ _ _ _ _ Hcp).
  rewrite (yesOrNo_no _ line more); [reflexivity | | exact Hno].
  rewrite retryPrompt_stdin. exact Hin.
Qed.

End Validate.

Lemma scratch_content name current editor editorPath ed w :
  files (startProcess editorPath [editor; name] name ed
           (writeFile name current (createFile name w))) !! name
  = Some (ed current).
Proof.
  unfold startProcess, writeFile, createFile. simpl.
  rewrite lookup_alter_eq, lookup_insert_eq. reflexivity.
Qed.

Lemma edited_stdin current editor editorPath a w :
  stdin (edited current editor editorPath a w) = stdin w.
Proof. unfold edited. destruct (remove_err a); reflexivity. Qed.

Lemma edited_heap current editor editorPath a w :
  heap (edited current editor editorPath a w) = heap w.
Proof. unfold edited. destruct (remove_err a); reflexivity. Qed.

Lemma edited_stdout current editor editorPath a w :
  stdout (edited current editor editorPath a w) =
  stdout w ++
  match remove_err a with
  | None => []
  | Some e => ["Unable to delete temporary file: %s " +:+ e +:+ nl]
  end.
Proof.
  unfold edited. destruct (remove_err a); simpl; [reflexivity|].
  symmetry. apply app_nil_r.
Qed.

Lemma iteration_quiet CreatePatch original current patchOps editor editorPath a w :
  quiet a → read_err a = None →
  iteration CreatePatch original current patchOps editor editorPath a w =
  validate CreatePatch original (edit a current)
    (edited current editor editorPath a w).
Proof.
  intros (Ht & Hw & Hc & Hs & Hwt & Ho & Hrc) Hr.
  unfold iteration, edited. destruct (tempfile a) as [name err]. simpl in Ht.
  subst err. rewrite Hw, Hc, Hs, Hwt, Ho, Hrc, Hr. flow. simpl.
  rewrite lookup_alter_eq, lookup_insert_eq. simpl.
  destruct (remove_err a); reflexivity.
Qed.

Lemma scratch_removed_after_quiet_run current editor editorPath a w :
  remove_err a = None →
  files (edited current editor editorPath a w) !! (tempfile a).1 = None.
Proof.
  unfold edited. intros ->. unfold removeFile. simpl. apply lookup_delete_eq.
Qed.

(** ** editFile: from the resolved editor to the result *)

Lemma editFile_resolved CreatePatch original script w editor raw :
  Shell.Get cEDITOR w = Some (VString editor) →
  lookup_editor w editor = (raw, None) →
  editFile CreatePatch original script w =
  editSession CreatePatch original original [] editor
    (Strings.TrimSpace (string_of_list_byte raw)) script w.
Proof. unfold editFile, editSession. intros -> ->. reflexivity. Qed.

Lemma rangeOps_spec l patchOps acc w :
  rangeOps l patchOps acc w =
  (acc ++ patchOf l patchOps, with_heap (heapAfter l patchOps (heap w)) w).
Proof.
  revert acc w. induction patchOps as [|op rest IH]; intros acc w.
  - simpl. rewrite app_nil_r. destruct w; reflexivity.
  - simpl. rewrite IH, <- app_assoc. reflexivity.
Qed.

Lemma heapAfter_length l patchOps h :
  length (heapAfter l patchOps h) = length h.
Proof.
  revert h. induction patchOps as [|op rest IH]; intros h; [reflexivity|].
  simpl. rewrite IH. apply length_insert.
Qed.

Lemma heapAfter_last l patchOps op h :
  l < length h → heapAfter l (patchOps ++ [op]) h !! l = Some op.
Proof.
  intros Hl. unfold heapAfter. rewrite foldl_app. simpl.
  apply list_lookup_insert_eq.
  fold (heapAfter l patchOps h). rewrite heapAfter_length. exact Hl.
Qed.

Lemma assemble_empty w : assemble [] w = (Returns None None, w).
Proof. reflexivity. Qed.

Lemma assemble_changed patchOps w :
  patchOps ≠ [] →
  assemble patchOps w =
  (Returns (Some (mkPatchComment (patchOf (length (heap w)) patchOps)
                                 (Shell.ReadLine w).1)) None,
   with_stdin (tail (stdin w))
     (with_stdout (stdout w ++ ["Enter comment: "])
        (with_heap (heapAfter (length (heap w)) patchOps (heap w ++ [zeroOp]))
           w))).
Proof.
  intros Hne. unfold assemble.
  destruct patchOps as [|op rest]; [congruence|].
  rewrite bool_decide_eq_false_2 by (simpl; lia).
  rewrite rangeOps_spec. unfold Shell.ReadLine, Shell.Print.
  destruct w as [v ar inp out rep pk le fs la pr dr cl hp]. simpl.
  destruct inp; reflexivity.
Qed.

(** What a reader sees in the operations of a returned patch: the [op] and
    [path] of each operation of the diff, in the order of the diff, and in
    every one of them the value of the last operation. *)
Lemma assemble_seen patchOps final w :
  map (seen (assemble (patchOps ++ [final]) w).2)
      (patchOf (length (heap w)) (patchOps ++ [final])) =
  map (λ op, (Operation op, jPath op, Some (jValue final)))
      (patchOps ++ [final]).
Proof.
  rewrite assemble_changed by (destruct patchOps; discriminate).
  unfold patchOf. rewrite map_map. apply map_ext. intros op.
  unfold seen, valueOf. simpl.
  rewrite heapAfter_last by (rewrite length_app; simpl; lia).
  reflexivity.
Qed.

(** C6.  A diff of two operations with different values: the patch that
    [editFile] returns has the two operations in order, with their [op] and
    [path] and with the comment line entered, but both values read as the
    value of the last operation, not as the values of the diff. *)
Theorem values_alias_the_last_operation :
  match editFile Fake.CreatePatch (B "[1,1]") [Fake.saves "/tmp/ldc1" "[2,3]"]
          (Fake.world ["fixed typo"]) with
  | Some (Returns (Some pc) None, w') =>
      Comment pc = "fixed typo" ∧
      map (seen w') (Patch pc) =
        [("replace", "/0", Some (JNumber "3"));
         ("replace", "/1", Some (JNumber "3"))] ∧
      map direct (Fake.CreatePatch (B "[1,1]") (B "[2,3]")).1 =
        [("replace", "/0", Some (JNumber "2"));
         ("replace", "/1", Some (JNumber "3"))] ∧
      map (seen w') (Patch pc) ≠
        map direct (Fake.CreatePatch (B "[1,1]") (B "[2,3]")).1
  | _ => False
  end.
Proof.
  vm_compute. split; [reflexivity|]. split; [reflexivity|].
  split; [reflexivity|]. discriminate.
Qed.

(** ** The retry prompt *)

(** An invalid text and "n" at the prompt: [editFile] ends with no error,
    and with the very result of an edit that changed nothing. *)
Lemma no_at_the_prompt_is_not_an_error :
  ¬ endsWithError
      (editFile Fake.CreatePatch (B "[1]") [Fake.saves "/tmp/ldc1" "[1,"]
         (Fake.world ["n"])) ∧
  fst <$> editFile Fake.CreatePatch (B "[1]") [Fake.saves "/tmp/ldc1" "[1,"]
            (Fake.world ["n"])
  = fst <$> editFile Fake.CreatePatch (B "[1]") [Fake.saves "/tmp/ldc1" "[ 1 ]"]
              (Fake.world []).
Proof.
  split.
  - intros (e & w' & H). vm_compute in H. discriminate H.
  - vm_compute. reflexivity.
Qed.

(** C1, as the code has it.  After a diff that failed, a line that counts
    as no ends the loop: "Edit aborted" is the last thing printed, the line
    is the only input taken, the scratch file of the pass is gone when its
    removal succeeded, and [editFile] returns no patch and no error, which
    is also what it returns when nothing was changed. *)
Theorem no_at_the_prompt_returns_nothing
    CreatePatch original current patchOps editor editorPath a rest w
    ops e line more :
  quiet a → read_err a = None →
  CreatePatch original (edit a current) = (ops, Some e) →
  stdin w = line :: more → isNo line →
  ∃ w',
    editSession CreatePatch original current patchOps editor editorPath
      (a :: rest) w = Some (Returns None None, w') ∧
    Some (Returns None None, w') = Some (assemble [] w') ∧
    stdin w' = more ∧
    last (stdout w') = Some ("Edit aborted" +:+ nl) ∧
    length (launches w') = S (length (launches w)) ∧
    (remove_err a = None → files w' !! (tempfile a).1 = None).
Proof.
  intros Hq Hr Hcp Hin Hno.
  eexists. split.
  - unfold editSession. simpl. rewrite (iteration_quiet _ _ _ _ _ _ _ _ Hq Hr).
    rewrite (validate_no _ _ _ ops e _ line more Hcp); [reflexivity | | exact Hno].
    rewrite edited_stdin. exact Hin.
  - split; [reflexivity|]. split; [reflexivity|]. split.
    + simpl. apply last_snoc.
    + split.
      * simpl. rewrite retryPrompt_launches. unfold edited.
        destruct (remove_err a); simpl; rewrite length_app; simpl; lia.
      * intros Hrm. simpl. rewrite retryPrompt_files.
        apply scratch_removed_after_quiet_run. exact Hrm.
Qed.

Lemma saves_quiet name text : quiet (Fake.saves name text).
Proof. repeat split. Qed.

Lemma no_at_the_prompt_returns_nothing_witness :
  ∃ w',
    editSession Fake.CreatePatch (B "[1]") (B "[1]") [] "vi" "/usr/bin/vi"
      [Fake.saves "/tmp/ldc1" "[1,"] (Fake.world ["no"; "later"])
    = Some (Returns None None, w') ∧
    stdin w' = ["later"].
Proof.
  destruct (no_at_the_prompt_returns_nothing Fake.CreatePatch (B "[1]") (B "[1]")
              [] "vi" "/usr/bin/vi" (Fake.saves "/tmp/ldc1" "[1,") []
              (Fake.world ["no"; "later"]) [] "Invalid JSON Document"
              "no" ["later"])
    as (w' & H1 & _ & H2 & _).
  - apply saves_quiet.
  - reflexivity.
  - vm_compute. reflexivity.
  - reflexivity.
  - split; vm_compute; discriminate.
  - exists w'. split; [exact H1 | exact H2].
Defined.

(** ** No change *)

Section NoChange.

Variable CreatePatch : bytes → bytes → list JsonPatchOperation * option error.

(** When two texts are the same document. *)
Variable same : bytes → bytes → Prop.

(** The diff engine finds no operation between two texts of the same
    document. *)
Hypothesis CreatePatch_same :
  ∀ a b, same a b → CreatePatch a b = ([], None).

(** C5.  When the text read back is the same document as the original,
    [editFile] returns no patch and no error; it takes no line of input
    and prints nothing but the warning of a failed removal, so there is
    no prompt for a comment. *)
Theorem same_document_is_no_change
    original current patchOps editor editorPath a rest w :
  quiet a → read_err a = None →
  same original (edit a current) →
  ∃ w',
    editSession CreatePatch original current patchOps editor editorPath
      (a :: rest) w = Some (Returns None None, w') ∧
    stdin w' = stdin w ∧
    stdout w' = stdout w ++
      match remove_err a with
      | None => []
      | Some e => ["Unable to delete temporary file: %s " +:+ e +:+ nl]
      end ∧
    "Enter comment: " ∉ drop (length (stdout w)) (stdout w').
Proof.
  intros Hq Hr Hsame.
  exists (edited current editor editorPath a w).
  assert (stdout (edited current editor editorPath a w) = stdout w ++
          match remove_err a with
          | None => []
          | Some e => ["Unable to delete temporary file: %s " +:+ e +:+ nl]
          end) as Hout by apply edited_stdout.
  split; [|split; [apply edited_stdin | split; [exact Hout|]]].
  - unfold editSession. simpl. rewrite (iteration_quiet _ _ _ _ _ _ _ _ Hq Hr).
    rewrite (validate_changed _ _ _ [] _ (CreatePatch_same _ _ Hsame)).
    reflexivity.
  - rewrite Hout, drop_app_length.
    destruct (remove_err a) as [e|].
    + intros Hin. apply list_elem_of_singleton in Hin.
      vm_compute in Hin. discriminate Hin.
    + apply not_elem_of_nil.
Qed.

End NoChange.

Lemma fake_diff_same (i : nat) (x : list string) : Fake.diff i x x = [].
Proof.
  revert i. induction x as [|c x IH]; intros i; [reflexivity|].
  simpl. rewrite bool_decide_eq_true_2 by reflexivity. apply IH.
Qed.

Lemma fake_CreatePatch_same (a b : bytes) :
  Fake.same a b → Fake.CreatePatch a b = ([], None).
Proof.
  intros (x & Ha & Hb). unfold Fake.CreatePatch. rewrite Ha, Hb.
  rewrite fake_diff_same. reflexivity.
Qed.

Lemma same_document_is_no_change_witness :
  ∃ w',
    editSession Fake.CreatePatch (B "[1,2]") (B "[1,2]") [] "vi" "/usr/bin/vi"
      [Fake.saves "/tmp/ldc1" " [ 1 , 2 ] "] (Fake.world ["unread"])
    = Some (Returns None None, w') ∧
    stdin w' = ["unread"] ∧ stdout w' = [].
Proof.
  destruct (same_document_is_no_change Fake.CreatePatch Fake.same
              fake_CreatePatch_same (B "[1,2]") (B "[1,2]") [] "vi"
              "/usr/bin/vi" (Fake.saves "/tmp/ldc1" " [ 1 , 2 ] ") []
              (Fake.world ["unread"]))
    as (w' & H1 & H2 & H3 & _).
  - apply saves_quiet.
  - reflexivity.
  - exists ["1"; "2"]. split; vm_compute; reflexivity.
  - exists w'. split; [exact H1|]. split; [exact H2 | exact H3].
Defined.

(** ** Fatal errors *)

(** C7.  When the editor cannot be resolved, [editFile] returns the error
    and the world is as before but for the report of the error: no file
    was created and no editor was started.  When the editor cannot be
    started, or the wait for its exit fails, [editFile] returns the error
    of that pass at once: nothing is printed, so there is no prompt, and no
    line of input is taken, whatever editor runs the script has left. *)
Theorem resolve_spawn_and_wait_errors_are_fatal CreatePatch original :
  (∀ script w editor raw e,
     Shell.Get cEDITOR w = Some (VString editor) →
     lookup_editor w editor = (raw, Some e) →
     editFile CreatePatch original script w
       = Some (Returns None (Some e), Shell.Err e w) ∧
     files (Shell.Err e w) = files w ∧
     launches (Shell.Err e w) = launches w) ∧
  (∀ current patchOps editor editorPath a rest w e,
     (tempfile a).2 = None → write_err a = None → close_err a = None →
     start_err a = Some e →
     ∃ w',
       editSession CreatePatch original current patchOps editor editorPath
         (a :: rest) w = Some (Returns None (Some e), w') ∧
       stdin w' = stdin w ∧ stdout w' = stdout w ∧
       launches w' = launches w) ∧
  (∀ current patchOps editor editorPath a rest w e,
     (tempfile a).2 = None → write_err a = None → close_err a = None →
     start_err a = None → wait_err a = Some e →
     ∃ w',
       editSession CreatePatch original current patchOps editor editorPath
         (a :: rest) w = Some (Returns None (Some e), w') ∧
       stdin w' = stdin w ∧ stdout w' = stdout w ∧
       reported w' = reported w ++ [e]).
Proof.
  split; [|split].
  - intros script w editor raw e Hget Hlook.
    unfold editFile. rewrite Hget, Hlook. repeat split.
  - intros current patchOps editor editorPath a rest w e Ht Hw Hc Hs.
    unfold editSession. simpl. unfold iteration.
    destruct (tempfile a) as [name err]. simpl in Ht. subst err.
    rewrite Hw, Hc, Hs. flow. simpl.
    eexists. split; [reflexivity|]. repeat split.
  - intros current patchOps editor editorPath a rest w e Ht Hw Hc Hs Hwt.
    unfold editSession. simpl. unfold iteration.
    destruct (tempfile a) as [name err]. simpl in Ht. subst err.
    rewrite Hw, Hc, Hs, Hwt. flow. simpl.
    eexists. split; [reflexivity|]. repeat split.
Qed.

Lemma resolve_spawn_and_wait_errors_are_fatal_witness :
  editFile Fake.CreatePatch (B "[1]") [Fake.saves "/tmp/ldc1" "[2]"] lost
    = Some (Returns None (Some "exit status 1"), Shell.Err "exit status 1" lost) ∧
  (∃ w', editSession Fake.CreatePatch (B "[1]") (B "[1]") [] "vi" "/usr/bin/vi"
           [unstarted "/tmp/ldc1"; Fake.saves "/tmp/ldc2" "[2]"]
           (Fake.world ["y"])
         = Some (Returns None (Some "permission denied"), w') ∧
         stdin w' = ["y"]) ∧
  (∃ w', editSession Fake.CreatePatch (B "[1]") (B "[1]") [] "vi" "/usr/bin/vi"
           [unawaited "/tmp/ldc1"; Fake.saves "/tmp/ldc2" "[2]"]
           (Fake.world ["y"])
         = Some (Returns None (Some "wait: no child processes"), w') ∧
         stdin w' = ["y"]).
Proof.
  pose proof (resolve_spawn_and_wait_errors_are_fatal Fake.CreatePatch (B "[1]"))
    as (Hresolve & Hspawn & Hwait).
  split; [|split].
  - apply (Hresolve [Fake.saves "/tmp/ldc1" "[2]"] lost "vi" []).
    + vm_compute. reflexivity.
    + reflexivity.
  - destruct (Hspawn (B "[1]") [] "vi" "/usr/bin/vi" (unstarted "/tmp/ldc1")
                [Fake.saves "/tmp/ldc2" "[2]"] (Fake.world ["y"])
                "permission denied") as (w' & H1 & H2 & _);
      [reflexivity ..|].
    exists w'. split; [exact H1 | exact H2].
  - destruct (Hwait (B "[1]") [] "vi" "/usr/bin/vi" (unawaited "/tmp/ldc1")
                [Fake.saves "/tmp/ldc2" "[2]"] (Fake.world ["y"])
                "wait: no child processes") as (w' & H1 & H2 & _);
      [reflexivity ..|].
    exists w'. split; [exact H1 | exact H2].
Defined.

(** ** The scratch file *)

(** C2.  The editor does not start: [editFile] returns the error, and the
    scratch file it wrote is still there, with the text written to it.  The
    same holds when the wait for the editor fails. *)
Theorem scratch_file_survives_a_fatal_error :
  match editFile Fake.CreatePatch (B "[1]") [unstarted "/tmp/ldc1"]
          (Fake.world []) with
  | Some (Returns None (Some e), w') =>
      e = "permission denied" ∧ files w' !! "/tmp/ldc1" = Some (B "[1]")
  | _ => False
  end ∧
  match editFile Fake.CreatePatch (B "[1]") [unawaited "/tmp/ldc1"]
          (Fake.world []) with
  | Some (Returns None (Some e), w') =>
      e = "wait: no child processes" ∧
      files w' !! "/tmp/ldc1" = Some (B "[1]")
  | _ => False
  end.
Proof. vm_compute. repeat split. Qed.

(** ** A failed read *)

(** C3.  The read of the scratch file fails after the three bytes "[2]" and
    the user answers "y" to "Try again?".  The editor is not started again:
    the loop goes on to the diff of the original against the three bytes
    read, and [editFile] returns the patch of that diff.  When the bytes
    read are no document, the same answer leads to a second prompt instead
    of the editor. *)
Theorem yes_after_a_failed_read_goes_on_with_the_partial_text :
  match editFile Fake.CreatePatch (B "[1]")
          [cut "/tmp/ldc1" "[2],3]" 3; Fake.saves "/tmp/ldc2" "[4]"]
          (Fake.world ["y"; "done"]) with
  | Some (Returns (Some pc) None, w') =>
      map (seen w') (Patch pc) = [("replace", "/0", Some (JNumber "2"))] ∧
      Comment pc = "done" ∧
      length (launches w') = 1
  | _ => False
  end ∧
  match editFile Fake.CreatePatch (B "[1]")
          [cut "/tmp/ldc1" "[2]" 2; Fake.saves "/tmp/ldc2" "[4]"]
          (Fake.world ["y"; "n"]) with
  | Some (Returns None None, w') =>
      length (launches w') = 1 ∧ stdin w' = [] ∧
      stdout w' = ["Unable to read file: %s <nil>" +:+ nl;
                   "Try again? [y]/n  ";
                   "Unable to parse json. Make changes? [y]/n ";
                   "Edit aborted" +:+ nl]
  | _ => False
  end.
Proof. vm_compute. repeat split. Qed.

(** ** Retries *)

Section Retries.

Variable CreatePatch : bytes → bytes → list JsonPatchOperation * option error.
Variables (original : bytes) (editor editorPath : string).

Lemma editSession_continue current patchOps a rest w current' patchOps' w' :
  iteration CreatePatch original current patchOps editor editorPath a w
    = Next (current', patchOps') w' →
  editSession CreatePatch original current patchOps editor editorPath
    (a :: rest) w
  = editSession CreatePatch original current' patchOps' editor editorPath
      rest w'.
Proof. unfold editSession. simpl. intros ->. reflexivity. Qed.

Lemma editSession_break current patchOps a rest w ops w' :
  iteration CreatePatch original current patchOps editor editorPath a w
    = Leave (Break ops) w' →
  editSession CreatePatch original current patchOps editor editorPath
    (a :: rest) w
  = Some (assemble ops w').
Proof. unfold editSession. simpl. intros ->. reflexivity. Qed.

(** A pass with an invalid edit and a yes at the prompt: the text of the
    edit is the seed of the next pass; the original stays what the diff
    is taken against; the heap is untouched. *)
Lemma invalid_edit_then_yes a current w line more :
  invalidEdit CreatePatch original a → stdin w = line :: more → isYes line →
  ∃ w',
    iteration CreatePatch original current [] editor editorPath a w
      = Next (edit a current, []) w' ∧
    stdin w' = more ∧ heap w' = heap w.
Proof.
  intros (Hq & Hr & Hbad) Hin Hyes.
  rewrite (iteration_quiet _ _ _ _ _ _ _ _ Hq Hr).
  specialize (Hbad current).
  destruct (CreatePatch original (edit a current)) as [ops [e|]] eqn:Hcp;
    [clear Hbad | simpl in Hbad; congruence].
  eexists. split.
  - apply (validate_yes _ _ _ ops e _ line more Hcp); [|exact Hyes].
    rewrite edited_stdin. exact Hin.
  - split; [reflexivity|].
    simpl. rewrite retryPrompt_heap. apply edited_heap.
Qed.

(** Any number of invalid edits, each followed by a yes, lead to the rest
    of the script with the input and the heap they would have had. *)
Lemma invalid_edits_then_yes bad :
  ∀ answers current w script more,
    Forall (invalidEdit CreatePatch original) bad → length answers = length bad →
    Forall isYes answers → stdin w = answers ++ more →
    ∃ current' w',
      editSession CreatePatch original current [] editor editorPath
        (bad ++ script) w
      = editSession CreatePatch original current' [] editor editorPath
          script w' ∧
      stdin w' = more ∧ heap w' = heap w.
Proof.
  induction bad as [|a bad IH]; intros answers current w script more
    Hbad Hlen Hyes Hin.
  - destruct answers; [|discriminate Hlen].
    exists current, w. repeat split. exact Hin.
  - destruct answers as [|line answers]; [discriminate Hlen|].
    apply Forall_cons in Hbad as [Ha Hbad].
    apply Forall_cons in Hyes as [Hline Hyes].
    destruct (invalid_edit_then_yes a current w line (answers ++ more)
                Ha Hin Hline) as (w1 & Hstep & Hin1 & Hheap1).
    destruct (IH answers (edit a current) w1 script more Hbad
                ltac:(simpl in Hlen; lia) Hyes Hin1)
      as (current' & w' & Hrun & Hin' & Hheap').
    exists current', w'. split; [|split].
    + simpl. rewrite (editSession_continue _ _ _ _ _ _ _ _ Hstep). exact Hrun.
    + exact Hin'.
    + rewrite Hheap'. exact Hheap1.
Qed.

(** A pass with an edit that has a diff: the patch of that diff against
    the original, with the next line of input as its comment. *)
Lemma valid_edit_patch good current w v ops comment rest :
  quiet good → read_err good = None → edit good current = v →
  CreatePatch original v = (ops, None) → ops ≠ [] →
  stdin w = comment :: rest →
  ∃ w',
    editSession CreatePatch original current [] editor editorPath [good] w
    = Some (Returns (Some (mkPatchComment (patchOf (length (heap w)) ops)
                                          comment)) None, w') ∧
    heap w' = heapAfter (length (heap w)) ops (heap w ++ [zeroOp]) ∧
    stdin w' = rest.
Proof.
  intros Hq Hr Hv Hcp Hne Hin.
  eexists. split.
  - erewrite editSession_break; cycle 1.
    { rewrite (iteration_quiet _ _ _ _ _ _ _ _ Hq Hr), Hv.
      apply (validate_changed _ _ _ ops _ Hcp). }
    rewrite (assemble_changed _ _ Hne).
    rewrite edited_heap.
    rewrite (ReadLine_stdin _ comment rest)
      by (rewrite edited_stdin; exact Hin).
    reflexivity.
  - split; simpl.
    + reflexivity.
    + rewrite edited_stdin, Hin. reflexivity.
Qed.

End Retries.

(** C4.  The diff is taken against the original in every pass.  So, for any
    number of invalid edits, each followed by a yes at the prompt, and then
    an edit with a diff, [editFile] returns the patch it returns when that
    edit is the first one: the same operations, pointing to the same heap
    cell with the same content, and the same comment. *)
Theorem retries_do_not_change_the_patch
    CreatePatch original editor raw (bad : list Attempt)
    (answers : list string) good good' v ops comment rest w :
  Shell.Get cEDITOR w = Some (VString editor) →
  lookup_editor w editor = (raw, None) →
  Forall (invalidEdit CreatePatch original) bad →
  length answers = length bad → Forall isYes answers →
  quiet good → read_err good = None → (∀ seed, edit good seed = v) →
  quiet good' → read_err good' = None → edit good' original = v →
  CreatePatch original v = (ops, None) → ops ≠ [] →
  let retried :=
    editFile CreatePatch original (bad ++ [good])
      (with_stdin (answers ++ comment :: rest) w) in
  let first :=
    editFile CreatePatch original [good'] (with_stdin (comment :: rest) w) in
  fst <$> retried = fst <$> first ∧
  (λ r, heap r.2) <$> retried = (λ r, heap r.2) <$> first ∧
  fst <$> first =
    Some (Returns (Some (mkPatchComment (patchOf (length (heap w)) ops) comment))
                  None).
Proof.
  intros Hget Hlook Hbad Hlen Hyes Hq Hr Hv Hq' Hr' Hv' Hcp Hne retried first.
  subst retried first.
  rewrite (editFile_resolved _ _ _ (with_stdin (answers ++ comment :: rest) w)
             editor raw Hget Hlook).
  rewrite (editFile_resolved _ _ _ (with_stdin (comment :: rest) w)
             editor raw Hget Hlook).
  set (editorPath := Strings.TrimSpace (string_of_list_byte raw)).
  destruct (invalid_edits_then_yes CreatePatch original editor editorPath bad
              answers original (with_stdin (answers ++ comment :: rest) w)
              [good] (comment :: rest) Hbad Hlen Hyes eq_refl)
    as (current' & w1 & Hrun & Hin1 & Hheap1).
  destruct (valid_edit_patch CreatePatch original editor editorPath good
              current' w1 v ops comment rest Hq Hr (Hv current') Hcp Hne Hin1)
    as (wa & Ha & Hheapa & _).
  destruct (valid_edit_patch CreatePatch original editor editorPath good'
              original (with_stdin (comment :: rest) w) v ops comment rest
              Hq' Hr' Hv' Hcp Hne eq_refl)
    as (wb & Hb & Hheapb & _).
  rewrite Hrun, Ha, Hb. simpl.
  rewrite Hheapa, Hheapb, Hheap1. simpl. repeat split.
Qed.

Lemma retries_do_not_change_the_patch_witness :
  fst <$> editFile Fake.CreatePatch (B "[1]")
            [Fake.saves "/tmp/ldc1" "[1,"; Fake.saves "/tmp/ldc2" "[1,2";
             Fake.saves "/tmp/ldc3" "[1,2]"]
            (with_stdin (["y"; ""] ++ "added 2" :: []) (Fake.world []))
  = fst <$> editFile Fake.CreatePatch (B "[1]") [Fake.saves "/tmp/ldc9" "[1,2]"]
              (with_stdin ("added 2" :: []) (Fake.world [])).
Proof.
  apply (retries_do_not_change_the_patch Fake.CreatePatch (B "[1]") "vi"
           (B ("/usr/bin/vi" +:+ nl))
           [Fake.saves "/tmp/ldc1" "[1,"; Fake.saves "/tmp/ldc2" "[1,2"]
           ["y"; ""] (Fake.saves "/tmp/ldc3" "[1,2]")
           (Fake.saves "/tmp/ldc9" "[1,2]") (B "[1,2]")
           [mkJsonPatchOperation "add" "/1" (JNumber "2")] "added 2" []
           (Fake.world [])).
  - vm_compute. reflexivity.
  - reflexivity.
  - repeat constructor.
    + intros seed H. vm_compute in H. discriminate H.
    + intros seed H. vm_compute in H. discriminate H.
  - reflexivity.
  - constructor; [right; reflexivity|].
    constructor; [left; reflexivity | constructor].
  - apply saves_quiet.
  - reflexivity.
  - intros seed. reflexivity.
  - apply saves_quiet.
  - reflexivity.
  - reflexivity.
  - vm_compute. reflexivity.
  - discriminate.
Defined.


(** * Further properties *)

(** ** Completion *)

Lemma HasPrefix_beginsWith (s prefix : string) :
  Strings.HasPrefix s prefix = true ↔ beginsWith s prefix.
Proof.
  unfold beginsWith. revert s.
  induction prefix as [|p prefix IH]; intros s; simpl.
  - split; [intros _; exists s; reflexivity | destruct s; reflexivity].
  - destruct s as [|c s]; simpl.
    + split; [discriminate | intros [rest H]; discriminate H].
    + rewrite andb_true_iff, bool_decide_eq_true, IH. split.
      * intros [-> [rest ->]]. exists rest. reflexivity.
      * intros [rest H]. injection H as -> ->. split; [reflexivity|].
        exists rest. reflexivity.
Qed.

Lemma string_app_cons (x : ascii) (a b : string) :
  String x a +:+ b = String x (a +:+ b).
Proof. reflexivity. Qed.

Lemma string_app_assoc (a b c : string) : (a +:+ b) +:+ c = a +:+ (b +:+ c).
Proof.
  induction a as [|x a IH]; [reflexivity|].
  rewrite !string_app_cons, IH. reflexivity.
Qed.

Lemma string_length_app (a b : string) :
  String.length (a +:+ b) = String.length a + String.length b.
Proof.
  induction a as [|x a IH]; [reflexivity|].
  rewrite string_app_cons. simpl. rewrite IH. reflexivity.
Qed.

Lemma withPrefixLoop_filter (keys : list string) (prefix : string)
    (completions : list string) :
  withPrefixLoop keys prefix completions =
  completions ++ filter (λ key, Strings.HasPrefix key prefix = true) keys.
Proof.
  revert completions. induction keys as [|key keys IH]; intros completions.
  - simpl. rewrite app_nil_r. reflexivity.
  - simpl. rewrite IH, filter_cons.
    destruct (Strings.HasPrefix key prefix) eqn:E.
    + rewrite decide_True by reflexivity. rewrite <- app_assoc. reflexivity.
    + rewrite decide_False by discriminate. reflexivity.
Qed.

Lemma withPrefix_filter (keys : list string) (prefix : string) :
  withPrefix keys prefix =
  filter (λ key, Strings.HasPrefix key prefix = true) keys.
Proof. unfold withPrefix. apply withPrefixLoop_filter. Qed.


(** X2.  Completion can go on from its own result: the keys with a longer
    prefix are found among the keys with a shorter one, and the empty
    prefix keeps every key. *)
Theorem withPrefix_narrows (keys : list string) (prefix more : string) :
  withPrefix (withPrefix keys prefix) (prefix +:+ more)
    = withPrefix keys (prefix +:+ more) ∧
  withPrefix keys "" = keys.
Proof.
  split.
  - rewrite !withPrefix_filter. apply list_filter_filter_l.
    intros key. rewrite !HasPrefix_beginsWith. intros [rest ->].
    exists (more +:+ rest). apply string_app_assoc.
  - rewrite withPrefix_filter.
    induction keys as [|key keys IH]; [reflexivity|].
    rewrite filter_cons_True by (destruct key; reflexivity).
    rewrite IH. reflexivity.
Qed.

Lemma completerLoop_map (args keys completions : list string) :
  completerLoop args keys completions =
  completions ++
  map shown (filter (λ key, matchesArgs args key = true) keys).
Proof.
  revert completions. induction keys as [|key keys IH]; intros completions.
  - simpl. rewrite app_nil_r. reflexivity.
  - simpl. rewrite IH, filter_cons.
    destruct (matchesArgs args key) eqn:E.
    + rewrite decide_True by reflexivity. rewrite <- app_assoc. reflexivity.
    + rewrite decide_False by discriminate. reflexivity.
Qed.

Lemma matchesArgs_toPrefix (args : list string) (key : string) :
  matchesArgs args key = Strings.HasPrefix key (toPrefix args).
Proof. destruct args; [destruct key; reflexivity | reflexivity]. Qed.

(** X3.  A completer made by [makeCompleter] completes the first argument
    only.  With more than one argument it gives nothing and does not
    fetch; otherwise it fetches once and gives the fetched keys that begin
    with the argument (all of them when there is none), in order, each
    between double quotes when it has a space. *)
Theorem makeCompleter_completes_the_first_argument
    (fetch : World → list string * World) (args : list string) (w : World) :
  ((1 < length args)%nat → makeCompleter fetch args w = ([], w)) ∧
  ((length args ≤ 1)%nat →
   makeCompleter fetch args w =
   (map shown (withPrefix (fetch w).1 (toPrefix args)), (fetch w).2)).
Proof.
  unfold makeCompleter. split; intros H.
  - rewrite bool_decide_eq_true_2 by exact H. reflexivity.
  - rewrite bool_decide_eq_false_2 by lia.
    destruct (fetch w) as [keys w']. simpl.
    rewrite completerLoop_map, withPrefix_filter. simpl. do 2 f_equal.
    apply list_filter_iff. intros key. rewrite matchesArgs_toPrefix. reflexivity.
Qed.

Lemma makeCompleter_completes_the_first_argument_witness :
  makeCompleter (fetching ["new flag"; "next"; "old"]) ["ne"; "x"] (Fake.world [])
    = ([], Fake.world []) ∧
  makeCompleter (fetching ["new flag"; "next"; "old"]) ["ne"] (Fake.world [])
    = ([doubleQuote +:+ "new flag" +:+ doubleQuote; "next"], Fake.world []).
Proof.
  split.
  - apply (proj1 (makeCompleter_completes_the_first_argument
                    (fetching ["new flag"; "next"; "old"]) ["ne"; "x"]
                    (Fake.world []))).
    simpl. lia.
  - apply (proj2 (makeCompleter_completes_the_first_argument
                    (fetching ["new flag"; "next"; "old"]) ["ne"]
                    (Fake.world []))).
    simpl. lia.
Defined.

Lemma nonFinalLoop_map (original completions : list string) :
  nonFinalLoop original completions =
  completions ++ map (λ s, s +:+ " ") original.
Proof.
  revert completions. induction original as [|s original IH]; intros completions.
  - simpl. rewrite app_nil_r. reflexivity.
  - simpl. rewrite IH, <- app_assoc. reflexivity.
Qed.

Lemma string_app_inj_r (a b c : string) : a +:+ c = b +:+ c → a = b.
Proof.
  intros H.
  assert (String.length a = String.length b) as Hlen.
  { apply (f_equal String.length) in H.
    rewrite !string_length_app in H. lia. }
  revert b H Hlen. induction a as [|x a IH]; intros [|y b] H Hlen;
    try discriminate Hlen; [reflexivity|].
  rewrite !string_app_cons in H. injection H as -> H. f_equal.
  apply IH; [exact H|]. simpl in Hlen. lia.
Qed.

(** X4.  [nonFinalCompleter] changes nothing but the end of each
    completion: it gives the completions of the completer it wraps, as
    many and in the same order, each with one space after it, and leaves
    the world as that completer left it.  Two completers with the same
    non-final completions have the same completions. *)
Theorem nonFinalCompleter_adds_a_space
    (completer other : Completer) (args : list string) (w : World) :
  nonFinalCompleter completer args w =
    (map (λ s, s +:+ " ") (completer args w).1, (completer args w).2) ∧
  length (nonFinalCompleter completer args w).1 = length (completer args w).1 ∧
  ((nonFinalCompleter completer args w).1 = (nonFinalCompleter other args w).1 ↔
   (completer args w).1 = (other args w).1).
Proof.
  assert (∀ c : Completer,
            nonFinalCompleter c args w =
            (map (λ s, s +:+ " ") (c args w).1, (c args w).2)) as Hmap.
  { intros c. unfold nonFinalCompleter. destruct (c args w) as [original w'].
    rewrite nonFinalLoop_map. reflexivity. }
  split; [apply Hmap|]. split.
  - rewrite Hmap. simpl. apply length_map.
  - rewrite !Hmap. simpl. split; [|intros ->; reflexivity].
    generalize (completer args w).1 as l1, (other args w).1 as l2.
    induction l1 as [|a l1 IH]; intros [|b l2] H; try discriminate H;
      [reflexivity|].
    simpl in H. injection H as Hab H. f_equal; [|apply IH; exact H].
    apply (string_app_inj_r _ _ " "). exact Hab.
Qed.

(** ** Rendering *)

(** X5.  Once [setJSON] was called, [renderJSON] answers with the value
    last set, whatever the [json] value of the shell says; before any call
    it answers true exactly when that value is the boolean true.  [setJSON]
    touches nothing else. *)
Theorem setJSON_overrides_the_shell_value (val other : bool) (s : Session) :
  renderJSON (setJSON val s) = val ∧
  renderJSON (setJSON val (setJSON other s)) = val ∧
  world (setJSON val s) = world s ∧
  (jsonMode s = None →
   (renderJSON s = true ↔ Shell.Get cJSON (world s) = Some (VBool true))).
Proof.
  split; [reflexivity|]. split; [reflexivity|]. split; [reflexivity|].
  intros Hnil. unfold renderJSON. rewrite Hnil. unfold deepEqualTrue.
  destruct (Shell.Get cJSON (world s)) as [[[]| |]|]; split; congruence.
Qed.

Lemma setJSON_overrides_the_shell_value_witness :
  renderJSON (setJSON false (session (asking []))) = false ∧
  (renderJSON (session (asking [])) = true ↔
   Shell.Get cJSON (world (session (asking []))) = Some (VBool true)).
Proof.
  destruct (setJSON_overrides_the_shell_value false true (session (asking [])))
    as (H1 & _ & _ & H2).
  split; [exact H1|]. apply H2. reflexivity.
Defined.








Example ifNotBlank_keeps_white_space : ifNotBlank " a " "name" = " a ".
Proof. reflexivity. Qed.

(** X7.  [renderPagedTable] prints a table of at most 1000 bytes on the
    console and does not use the pager; a longer table goes to the pager
    only, and the error of the pager, when there is one, is reported. *)
Theorem renderPagedTable_pages_above_1000_bytes (buf : bytes) (s : Session) :
  let text := string_of_list_byte buf in
  let s' := renderPagedTable buf s in
  ((length buf ≤ 1000)%nat →
   stdout (world s') = stdout (world s) ++ [text] ∧
   paged s' = paged s ∧ reported (world s') = reported (world s)) ∧
  ((1000 < length buf)%nat →
   paged s' = paged s ++ [text] ∧
   stdout (world s') = stdout (world s) ∧
   reported (world s') =
     reported (world s) ++ match pager_reply s text with
                           | Some e => [e]
                           | None => []
                           end).
Proof.
  intros text s'. subst text s'. unfold renderPagedTable. split; intros H.
  - rewrite bool_decide_eq_false_2 by lia. repeat split.
  - rewrite bool_decide_eq_true_2 by exact H. simpl.
    destruct (pager_reply s (string_of_list_byte buf)); simpl.
    + repeat split.
    + rewrite app_nil_r. repeat split.
Qed.

Lemma renderPagedTable_pages_above_1000_bytes_witness :
  stdout (world (renderPagedTable (replicate 1000 "x"%byte)
                   (session (Fake.world []))))
    = [string_of_list_byte (replicate 1000 "x"%byte)] ∧
  paged (renderPagedTable (replicate 1001 "x"%byte) (session (Fake.world [])))
    = [string_of_list_byte (replicate 1001 "x"%byte)].
Proof.
  split.
  - apply (proj1 (renderPagedTable_pages_above_1000_bytes
                    (replicate 1000 "x"%byte) (session (Fake.world [])))).
    vm_compute. lia.
  - apply (proj2 (renderPagedTable_pages_above_1000_bytes
                    (replicate 1001 "x"%byte) (session (Fake.world [])))).
    vm_compute. lia.
Defined.

(** ** Looking a project up *)

Lemma findProject_found (projectKey : string) (projects : list Project)
    (foundProject : option Project) (p : Project) :
  findProject projectKey projects foundProject = Some p →
  (p ∈ projects ∧ Key p = projectKey) ∨ foundProject = Some p.
Proof.
  revert foundProject. induction projects as [|q projects IH];
    intros foundProject H; simpl in H; [right; exact H|].
  apply IH in H as [[Hin Hkey] | H].
  - left. split; [right; exact Hin | exact Hkey].
  - case_bool_decide as Hq; [|right; exact H].
    injection H as <-. left. split; [left | exact Hq].
Qed.

Lemma findProject_none (projectKey : string) (projects : list Project)
    (foundProject : option Project) :
  findProject projectKey projects foundProject = None ↔
  foundProject = None ∧ ∀ p, p ∈ projects → Key p ≠ projectKey.
Proof.
  revert foundProject. induction projects as [|q projects IH];
    intros foundProject; simpl.
  - split; [intros ->; split; [reflexivity|] | tauto].
    intros p Hp. apply elem_of_nil in Hp. destruct Hp.
  - rewrite IH. case_bool_decide as Hq.
    + split; [intros [H _]; discriminate H|].
      intros [_ H]. exfalso. apply (H q); [left | exact Hq].
    + split.
      * intros [-> H]. split; [reflexivity|]. intros p Hp.
        apply elem_of_cons in Hp as [-> | Hp]; [exact Hq | apply H; exact Hp].
      * intros [-> H]. split; [reflexivity|]. intros p Hp.
        apply H. right. exact Hp.
Qed.

Lemma getProjectArg_listed (w : World) (projects : list Project) :
  projects_reply w (length (calls w)) = (projects, None) →
  listProjects w = ((projects, None), with_calls (calls w ++ [GetProjects]) w).
Proof. unfold listProjects, Api.GetProjects. intros ->. reflexivity. Qed.

(** X8.  With a key as argument, and a listing that succeeds, the lookup
    lists the projects once and gives a project of the listing that has
    that key, or nil exactly when the listing has none; only then it
    prints that the project does not exist.  It takes no input. *)
Theorem getProjectArg_finds_the_project_of_the_key
    (w : World) (projectKey : string) (more : list string)
    (projects : list Project) :
  args w = projectKey :: more →
  projects_reply w (length (calls w)) = (projects, None) →
  ∃ found w',
    call getProjectArg w = (Ret found, w') ∧
    calls w' = calls w ++ [GetProjects] ∧
    stdin w' = stdin w ∧ picks w' = picks w ∧
    (∀ p, found = Some p →
          p ∈ projects ∧ Key p = projectKey ∧ stdout w' = stdout w) ∧
    (found = None ↔ ∀ p, p ∈ projects → Key p ≠ projectKey) ∧
    (found = None →
     stdout w' = stdout w ++
                 ["Project " +:+ projectKey +:+ " does not exist" +:+ nl]).
Proof.
  intros Hargs Hreply.
  set (w1 := with_calls (calls w ++ [GetProjects]) w).
  assert (call getProjectArg w =
          (Ret (findProject projectKey projects None),
           match findProject projectKey projects None with
           | Some _ => w1
           | None => Shell.Print ("Project " +:+ projectKey
                                  +:+ " does not exist" +:+ nl) w1
           end)) as Hrun.
  { unfold call, getProjectArg. flow.
    rewrite (getProjectArg_listed _ _ Hreply). simpl. rewrite Hargs.
    destruct (findProject projectKey projects None); reflexivity. }
  eexists _, _. split; [exact Hrun|].
  destruct (findProject projectKey projects None) as [p|] eqn:Hfind.
  - apply findProject_found in Hfind as [[Hin Hkey] | Hfind];
      [|discriminate Hfind].
    do 3 (split; [reflexivity|]). split; [|split].
    + intros q Hq. injection Hq as <-. split; [exact Hin|].
      split; [exact Hkey | reflexivity].
    + split; [discriminate|]. intros Hnone. exfalso. exact (Hnone p Hin Hkey).
    + discriminate.
  - apply findProject_none in Hfind as [_ Hfind].
    do 3 (split; [reflexivity|]). split; [|split].
    + discriminate.
    + split; [intros _; exact Hfind | reflexivity].
    + reflexivity.
Qed.

Lemma getProjectArg_finds_the_project_of_the_key_witness :
  ∃ w', call getProjectArg (serving ["demo"]) = (Ret (Some demo), w') ∧
        calls w' = [GetProjects].
Proof.
  destruct (getProjectArg_finds_the_project_of_the_key (serving ["demo"])
              "demo" [] [demo] eq_refl eq_refl)
    as (found & w' & Hrun & Hcalls & _).
  exists w'. split; [|exact Hcalls].
  rewrite Hrun. vm_compute in Hrun. injection Hrun as <- _. reflexivity.
Defined.

Lemma listProjectKeys_listed (w : World) (projects : list Project) :
  projects_reply w (length (calls w)) = (projects, None) →
  listProjectKeys w =
  ((map Key projects, None), with_calls (calls w ++ [GetProjects]) w).
Proof. unfold listProjectKeys, Api.GetProjects. intros ->. reflexivity. Qed.

(** X9.  With no argument the lookup lists the projects twice and lets the
    user pick.  A pick inside the first listing gives the project at that
    place of the first listing, whatever the second listing, the one
    shown, holds; any other pick, so every pick when there is no project,
    is a panic for an index out of range. *)
Theorem getProjectArg_pick_indexes_the_first_listing
    (w : World) (projects later : list Project) (choice : Z) (rest : list Z) :
  args w = [] →
  projects_reply w (length (calls w)) = (projects, None) →
  projects_reply w (S (length (calls w))) = (later, None) →
  picks w = choice :: rest →
  ∃ w',
    calls w' = calls w ++ [GetProjects; GetProjects] ∧ picks w' = rest ∧
    ((0 ≤ choice < Z.of_nat (length projects))%Z →
     call getProjectArg w = (Ret (projects !! Z.to_nat choice), w') ∧
     is_Some (projects !! Z.to_nat choice)) ∧
    (¬ (0 ≤ choice < Z.of_nat (length projects))%Z →
     call getProjectArg w = (Panicked indexOutOfRange, w')).
Proof.
  intros Hargs Hfirst Hsecond Hpicks.
  set (w1 := with_calls (calls w ++ [GetProjects]) w).
  assert (listProjectKeys w1 =
          ((map Key later, None), with_calls (calls w1 ++ [GetProjects]) w1))
    as Hkeys.
  { apply listProjectKeys_listed. simpl. rewrite length_app. simpl.
    replace (length (calls w) + 1) with (S (length (calls w))) by lia.
    exact Hsecond. }
  eexists. split; [|split; [|split]]; cycle 2.
  - intros Hin. split.
    + unfold call, getProjectArg. flow.
      rewrite (getProjectArg_listed _ _ Hfirst). simpl. rewrite Hargs.
      fold w1. rewrite Hkeys. simpl. unfold Shell.MultiChoice. simpl.
      rewrite Hpicks. rewrite bool_decide_eq_true_2 by exact Hin. reflexivity.
    + apply lookup_lt_is_Some. lia.
  - intros Hout.
    unfold call, getProjectArg. flow.
    rewrite (getProjectArg_listed _ _ Hfirst). simpl. rewrite Hargs.
    fold w1. rewrite Hkeys. simpl. unfold Shell.MultiChoice. simpl.
    rewrite Hpicks. rewrite bool_decide_eq_false_2 by exact Hout. reflexivity.
  - simpl. rewrite <- app_assoc. reflexivity.
  - reflexivity.
Qed.

Lemma getProjectArg_pick_indexes_the_first_listing_witness :
  (call getProjectArg (choosing 0)).1 = Ret (Some demo) ∧
  (call getProjectArg (choosing 2)).1 = Panicked indexOutOfRange.
Proof.
  split.
  - destruct (getProjectArg_pick_indexes_the_first_listing (choosing 0)
                [demo; mkProject "other" "Other" []]
                [demo; mkProject "other" "Other" []] 0 []
                eq_refl eq_refl eq_refl eq_refl) as (w' & _ & _ & Hin & _).
    destruct Hin as [Hrun _]; [simpl; lia|]. rewrite Hrun. reflexivity.
  - destruct (getProjectArg_pick_indexes_the_first_listing (choosing 2)
                [demo; mkProject "other" "Other" []]
                [demo; mkProject "other" "Other" []] 2 []
                eq_refl eq_refl eq_refl eq_refl) as (w' & _ & _ & _ & Hout).
    rewrite Hout; [reflexivity | simpl; lia].
Defined.

(** X10.  When a listing fails the lookup reports the error and gives nil:
    after the first listing without a second one, and after the second
    one, with no argument, without asking the user to pick.  Nothing is
    printed. *)
Theorem getProjectArg_reports_a_failed_listing
    (w : World) (projects later : list Project) (e : error) :
  (projects_reply w (length (calls w)) = (projects, Some e) →
   call getProjectArg w =
   (Ret None, Shell.Err e (with_calls (calls w ++ [GetProjects]) w))) ∧
  (args w = [] →
   projects_reply w (length (calls w)) = (projects, None) →
   projects_reply w (S (length (calls w))) = (later, Some e) →
   call getProjectArg w =
   (Ret None,
    Shell.Err e (with_calls (calls w ++ [GetProjects; GetProjects]) w))).
Proof.
  split.
  - intros Hfirst. unfold call, getProjectArg. flow.
    unfold listProjects, Api.GetProjects. rewrite Hfirst. reflexivity.
  - intros Hargs Hfirst Hsecond. unfold call, getProjectArg. flow.
    rewrite (getProjectArg_listed _ _ Hfirst). simpl. rewrite Hargs.
    unfold listProjectKeys, Api.GetProjects. simpl.
    rewrite length_app. simpl.
    replace (length (calls w) + 1) with (S (length (calls w))) by lia.
    rewrite Hsecond. simpl. rewrite <- app_assoc. reflexivity.
Qed.

Lemma getProjectArg_reports_a_failed_listing_witness :
  (call getProjectArg (down ["demo"])).1 = Ret None ∧
  reported (call getProjectArg (down ["demo"])).2 = ["503 Service Unavailable"] ∧
  (call getProjectArg failing).1 = Ret None ∧
  picks (call getProjectArg failing).2 = [0%Z].
Proof.
  pose proof (proj1 (getProjectArg_reports_a_failed_listing (down ["demo"]) [] []
                       "503 Service Unavailable") eq_refl) as H1.
  pose proof (proj2 (getProjectArg_reports_a_failed_listing failing [demo] []
                       "503 Service Unavailable") eq_refl eq_refl eq_refl)
    as H2.
  rewrite H1, H2. repeat split.
Defined.

(** ** Switching and creating *)

Lemma switchToProject_selection (project : Project) (s : Session) :
  CurrentProject (switchToProject project s) = Key project ∧
  CurrentEnvironment (switchToProject project s) =
    match Environments project with
    | [] => ""
    | first :: _ => eKey first
    end ∧
  consistent (switchToProject project s) ∧
  calls (world (switchToProject project s)) = calls (world s).
Proof.
  unfold consistent, switchToProject.
  destruct (Environments project); repeat split.
Qed.

Lemma createProject_cases (s : Session) :
  createProject s =
  match args (world s) with
  | [key] | [key; _] =>
      let name := match args (world s) with
                  | [_; name] => name
                  | _ => key
                  end in
      let s1 := on_world (λ w, with_calls (calls w ++ [PostProject key name]) w)
                  s in
      match post_reply s (length (calls (world s))) with
      | Some e => on_world (Shell.Err e) s1
      | None =>
          let s2 := on_world (Shell.Print ("Created project " +:+ key +:+ nl))
                      s1 in
          let s3 := on_world (λ w, with_calls (calls w ++ [GetProject key]) w)
                      s2 in
          match get_reply s (S (length (calls (world s)))) with
          | (_, Some e) => on_world (Shell.Err e) s3
          | (project, None) => switchToProject project s3
          end
      end
  | [] =>
      on_world (Shell.Err "please supply at least a key for the new environment")
        s
  | _ =>
      on_world
        (Shell.Err "too many arguments.  Expected arguments are: key [name].") s
  end.
Proof.
  unfold createProject, apiPostProject, apiGetProject.
  destruct (args (world s)) as [|key [|name [|third more]]]; try reflexivity.
  - destruct (post_reply s (length (calls (world s)))); [reflexivity|].
    simpl. rewrite length_app. simpl.
    replace (length (calls (world s)) + 1) with (S (length (calls (world s))))
      by lia.
    destruct (get_reply s (S (length (calls (world s))))) as [project [e|]];
      reflexivity.
  - destruct (post_reply s (length (calls (world s)))); [reflexivity|].
    simpl. rewrite length_app. simpl.
    replace (length (calls (world s)) + 1) with (S (length (calls (world s))))
      by lia.
    destruct (get_reply s (S (length (calls (world s))))) as [project [e|]];
      reflexivity.
Qed.

(** X11.  The prompt names the current project and environment after every
    switch, and the commands that create a project and that switch to one
    keep it so, however they end. *)
Theorem prompt_names_the_selection :
  (∀ project s, consistent (switchToProject project s)) ∧
  (∀ s, consistent s → consistent (createProject s)) ∧
  (∀ s, consistent s → consistent (switchCommand s).2).
Proof.
  split; [|split].
  - intros project s. apply switchToProject_selection.
  - intros s Hs. rewrite createProject_cases.
    destruct (args (world s)) as [|key [|name [|third more]]]; try exact Hs.
    + simpl. destruct (post_reply s _); [exact Hs|].
      destruct (get_reply s _) as [project [e|]]; [exact Hs|].
      apply switchToProject_selection.
    + simpl. destruct (post_reply s _); [exact Hs|].
      destruct (get_reply s _) as [project [e|]]; [exact Hs|].
      apply switchToProject_selection.
  - intros s Hs. unfold switchCommand.
    destruct (call getProjectArg (world s)) as [[[p|]|msg] w']; simpl;
      [apply switchToProject_selection | exact Hs | exact Hs].
Qed.

Lemma prompt_names_the_selection_witness :
  consistent (createProject (SetPrompt "/> " (session (serving ["demo"])))) ∧
  prompt (createProject (SetPrompt "/> " (session (serving ["demo"]))))
    = "demo/production> ".
Proof.
  split; [|reflexivity].
  apply (proj1 (proj2 prompt_names_the_selection)). reflexivity.
Defined.

(** X12.  [createProject] asks the service to create a project only with
    one or two arguments, once, under the key as name when no name is
    given; it fetches the project only after the service accepted it.
    With no argument or more than two it calls nothing and reports an
    error. *)
Theorem createProject_calls (s : Session) :
  let before := calls (world s) in
  let after := calls (world (createProject s)) in
  let fetched (key : string) :=
    match post_reply s (length before) with
    | Some _ => []
    | None => [GetProject key]
    end in
  match args (world s) with
  | [key] => after = before ++ PostProject key key :: fetched key
  | [key; name] => after = before ++ PostProject key name :: fetched key
  | _ => after = before ∧
         length (reported (world (createProject s)))
           = S (length (reported (world s)))
  end.
Proof.
  intros before after fetched. subst before after fetched.
  rewrite createProject_cases.
  destruct (args (world s)) as [|key [|name [|third more]]]; simpl.
  - split; [reflexivity|]. rewrite length_app. simpl. lia.
  - destruct (post_reply s _); [reflexivity|].
    destruct (get_reply s _) as [project [e|]]; simpl.
    + rewrite <- app_assoc. reflexivity.
    + destruct (Environments project); simpl; rewrite <- app_assoc;
        reflexivity.
  - destruct (post_reply s _); [reflexivity|].
    destruct (get_reply s _) as [project [e|]]; simpl.
    + rewrite <- app_assoc. reflexivity.
    + destruct (Environments project); simpl; rewrite <- app_assoc;
        reflexivity.
  - split; [reflexivity|]. rewrite length_app. simpl. lia.
Qed.

(** X13.  [createProject] changes the current project only when the
    service accepted the project and gave it back: then the current
    project is the key of the project fetched, and the current environment
    its first environment, or none.  In every other case the selection and
    the prompt stay and the error is the last one reported. *)
Theorem createProject_selects_the_fetched_project (s : Session) :
  (∀ key more project,
     args (world s) = key :: more → (length more ≤ 1)%nat →
     post_reply s (length (calls (world s))) = None →
     get_reply s (S (length (calls (world s)))) = (project, None) →
     CurrentProject (createProject s) = Key project ∧
     CurrentEnvironment (createProject s)
       = default "" (eKey <$> head (Environments project))) ∧
  (∀ key more project e,
     args (world s) = key :: more → (length more ≤ 1)%nat →
     post_reply s (length (calls (world s))) = Some e ∨
     (post_reply s (length (calls (world s))) = None ∧
      get_reply s (S (length (calls (world s)))) = (project, Some e)) →
     CurrentProject (createProject s) = CurrentProject s ∧
     CurrentEnvironment (createProject s) = CurrentEnvironment s ∧
     prompt (createProject s) = prompt s ∧
     last (reported (world (createProject s))) = Some e).
Proof.
  split.
  - intros key more project Hargs Hlen Hpost Hget.
    rewrite createProject_cases, Hargs.
    destruct more as [|name [|third more]]; [| |simpl in Hlen; lia];
      simpl; rewrite Hpost, Hget; unfold switchToProject;
      destruct (Environments project); split; reflexivity.
  - intros key more project e Hargs Hlen Hfail.
    rewrite createProject_cases, Hargs.
    destruct more as [|name [|third more]]; [| |simpl in Hlen; lia];
      simpl; destruct Hfail as [Hpost | [Hpost Hget]];
      rewrite Hpost; try rewrite Hget; simpl;
      repeat split; apply last_snoc.
Qed.

Lemma createProject_selects_the_fetched_project_witness :
  CurrentProject (createProject (session (serving ["demo"]))) = "demo" ∧
  CurrentEnvironment (createProject (session (serving ["demo"])))
    = "production".
Proof.
  apply (proj1 (createProject_selects_the_fetched_project
                  (session (serving ["demo"])))
           "demo" []
           (mkProject "demo" "Demo"
              [mkEnvironment "production"; mkEnvironment "test"]));
    [reflexivity | simpl; lia | reflexivity | reflexivity].
Defined.

Lemma projectCompleterLoop_filter (args keys completions : list string) :
  projectCompleterLoop args keys completions =
  completions ++ filter (λ key, matchesArgs args key = true) keys.
Proof.
  revert completions. induction keys as [|key keys IH]; intros completions.
  - simpl. rewrite app_nil_r. reflexivity.
  - simpl. rewrite IH, filter_cons.
    destruct (matchesArgs args key) eqn:E.
    + rewrite decide_True by reflexivity. rewrite <- app_assoc. reflexivity.
    + rewrite decide_False by discriminate. reflexivity.
Qed.

(** X14.  [projectCompleter] lists the projects once and completes the
    first argument with the keys of the projects, as [withPrefix] does with
    [toPrefix]; it looks at no further argument and puts no key between
    quotes.  When the listing fails it gives nothing and reports
    nothing. *)
Theorem projectCompleter_completes_project_keys
    (args : list string) (w : World) (projects : list Project) (e : error) :
  (projects_reply w (length (calls w)) = (projects, None) →
   projectCompleter args w =
   (withPrefix (map Key projects) (toPrefix args),
    with_calls (calls w ++ [GetProjects]) w)) ∧
  (projects_reply w (length (calls w)) = (projects, Some e) →
   projectCompleter args w = ([], with_calls (calls w ++ [GetProjects]) w)).
Proof.
  unfold projectCompleter. split; intros Hreply.
  - rewrite (listProjectKeys_listed _ _ Hreply).
    rewrite projectCompleterLoop_filter, withPrefix_filter. simpl. f_equal.
    apply list_filter_iff. intros key. rewrite matchesArgs_toPrefix. reflexivity.
  - unfold listProjectKeys, Api.GetProjects. rewrite Hreply. reflexivity.
Qed.

Lemma projectCompleter_completes_project_keys_witness :
  (projectCompleter ["de"; "x"] (serving [])).1 = ["demo"] ∧
  projectCompleter ["de"] (down []) =
    ([], with_calls [GetProjects] (down [])).
Proof.
  split.
  - rewrite (proj1 (projectCompleter_completes_project_keys ["de"; "x"]
                      (serving []) [demo] "") eq_refl).
    reflexivity.
  - apply (proj2 (projectCompleter_completes_project_keys ["de"] (down []) []
                    "503 Service Unavailable")).
    reflexivity.
Defined.

(** ** editFile: what it can return *)

Ltac settle :=
  let H := fresh in
  intros H; first [discriminate H | injection H as <- <-; eauto 8].

(** Case analysis of a pass of the loop, call by call. *)
Ltac pass :=
  repeat (simpl;
          match goal with
          | |- context [match ?t with _ => _ end] => is_var t; destruct t
          | |- context [readAll ?n ?r ?w] =>
              destruct (readAll n r w) as [? [?|]]
          | |- context [yesOrNo ?w] => destruct (yesOrNo w) as [[] ?]
          | |- context [bool_decide ?P] => destruct (bool_decide P)
          end).

Ltac diffed :=
  try match goal with
      | |- context [?f ?o ?d] =>
          match type of f with
          | bytes → bytes → list JsonPatchOperation * option error =>
              destruct (f o d) as [? [?|]] eqn:?
          end
      end.

(** How a pass of the loop is left: with an error to return, at the prompt
    after a failed read with [patchOps] as it was, at the prompt after a
    failed diff with no operations, or with the operations of a diff that
    succeeded. *)
Lemma iteration_leave CreatePatch original current patchOps editor editorPath
    a w x w' :
  iteration CreatePatch original current patchOps editor editorPath a w
    = Leave x w' →
  (∃ e, x = Return (Returns None (Some e))) ∨ x = Break patchOps ∨
  x = Break [] ∨
  (∃ newData ops, CreatePatch original newData = (ops, None) ∧ x = Break ops).
Proof.
  unfold iteration, validate.
  destruct a as [[name err] we ce se ed wte oe re rme rce].
  repeat flow. pass; diffed; pass; settle.
Qed.

Lemma iteration_next CreatePatch original current patchOps editor editorPath
    a w current' patchOps' w' :
  iteration CreatePatch original current patchOps editor editorPath a w
    = Next (current', patchOps') w' →
  patchOps' = [].
Proof.
  unfold iteration, validate.
  destruct a as [[name err] we ce se ed wte oe re rme rce].
  repeat flow. pass; diffed; pass;
    let H := fresh in
    intros H; first [discriminate H | injection H as <- <- <-; reflexivity].
Qed.

Lemma editLoop_exits CreatePatch original editor editorPath script :
  ∀ current w x w',
    editLoop CreatePatch original current [] editor editorPath script w
      = Some (x, w') →
    (∃ e, x = Return (Returns None (Some e))) ∨ x = Break [] ∨
    (∃ newData ops, CreatePatch original newData = (ops, None) ∧ x = Break ops).
Proof.
  induction script as [|a script IH]; intros current w x w' H; simpl in H;
    [discriminate H|].
  destruct (iteration _ _ _ _ _ _ _ _) as [[current' patchOps'] w1 | y w1]
    eqn:Hpass.
  - apply iteration_next in Hpass as ->. apply (IH _ _ _ _ H).
  - injection H as <- <-.
    apply iteration_leave in Hpass as [H | [H | [H | H]]]; auto.
Qed.

Lemma patchOf_fields (l : loc) (patchOps : list JsonPatchOperation) :
  map (λ p, (Op p, Path p)) (patchOf l patchOps)
  = map (λ op, (Operation op, jPath op)) patchOps.
Proof. unfold patchOf. rewrite map_map. reflexivity. Qed.

(** X15.  Whatever the editor runs and the answers are, [editFile] never
    returns a patch together with an error and never returns an empty
    patch: a patch it returns has the operations and paths, in order, of a
    diff of the original against some text, a diff that succeeded and
    found an operation.  It panics only when the [editor] value of the
    shell is not a string. *)
Theorem editFile_returns_only_patches_of_a_diff
    CreatePatch original script w o w' :
  editFile CreatePatch original script w = Some (o, w') →
  match o with
  | Returns (Some pc) err =>
      err = None ∧ Patch pc ≠ [] ∧
      ∃ newData ops,
        CreatePatch original newData = (ops, None) ∧
        map (λ p, (Op p, Path p)) (Patch pc)
          = map (λ op, (Operation op, jPath op)) ops
  | Returns None _ => True
  | Panics _ => ∀ editor, Shell.Get cEDITOR w ≠ Some (VString editor)
  end.
Proof.
  unfold editFile.
  destruct (Shell.Get cEDITOR w) as [[b|editor|z]|];
    try (intros H; injection H as <- <-; intros editor; congruence).
  destruct (lookup_editor w editor) as [raw [e|]];
    [intros H; injection H as <- <-; exact I|].
  destruct (editLoop _ _ _ _ _ _ _ _) as [[x w1]|] eqn:Hloop;
    [|discriminate].
  apply editLoop_exits in Hloop as [[e ->] | [-> | (newData & ops & Hcp & ->)]].
  - intros H. injection H as <- <-. exact I.
  - intros H. injection H as <- <-. exact I.
  - destruct ops as [|op ops].
    + intros H. injection H as <- <-. exact I.
    + rewrite assemble_changed by discriminate.
      intros H. injection H as <- <-. simpl.
      split; [reflexivity|]. split; [discriminate|].
      exists newData, (op :: ops). split; [exact Hcp|].
      apply (patchOf_fields _ (op :: ops)).
Qed.

Lemma editFile_returns_only_patches_of_a_diff_witness :
  ∃ newData ops,
    Fake.CreatePatch (B "[1]") newData = (ops, None) ∧
    [("replace", "/0")] = map (λ op, (Operation op, jPath op)) ops.
Proof.
  destruct (editFile Fake.CreatePatch (B "[1]") [Fake.saves "/tmp/ldc1" "[2]"]
              (Fake.world ["fixed typo"])) as [[o w']|] eqn:Hrun;
    [|vm_compute in Hrun; discriminate Hrun].
  pose proof (editFile_returns_only_patches_of_a_diff _ _ _ _ _ _ Hrun) as H.
  vm_compute in Hrun. injection Hrun as <- <-.
  destruct H as (_ & _ & H). exact H.
Defined.

(** ** editFile: a removal that fails *)

Lemma yesOrNo_agree (u1 u2 : World) :
  agree u1 u2 →
  (yesOrNo u1).1 = (yesOrNo u2).1 ∧ agree (yesOrNo u1).2 (yesOrNo u2).2.
Proof.
  intros [Hin Hheap]. rewrite !yesOrNo_unfold. unfold Shell.ReadLine.
  rewrite Hin. destruct (stdin u2) eqn:E; simpl; (split; [reflexivity|]);
    split; simpl; congruence.
Qed.

(** The two answers at a prompt reached in worlds that agree. *)
Ltac answers :=
  match goal with
  | |- context [yesOrNo ?p1] =>
      match goal with
      | |- context [yesOrNo ?p2] =>
          assert_fails (constr_eq p1 p2);
          let Ha := fresh in
          let Hb := fresh in
          let Hc := fresh in
          assert (agree p1 p2) as Ha by (split; simpl; congruence);
          destruct (yesOrNo_agree p1 p2 Ha) as [Hb Hc];
          destruct (yesOrNo p1) as [? ?], (yesOrNo p2) as [? ?];
          simpl in Hb, Hc; subst; destruct Hc
      end
  end.

Ltac agreed := simpl; split; [reflexivity | split; simpl; congruence].

Lemma validate_agree CreatePatch original newData (u1 u2 : World) :
  agree u1 u2 →
  alike (validate CreatePatch original newData u1)
        (validate CreatePatch original newData u2).
Proof.
  intros [H1 H2]. unfold validate.
  destruct (CreatePatch original newData) as [ops [e|]]; [|agreed].
  repeat flow.
  case_bool_decide; simpl; answers;
    match goal with |- context [if ?b then _ else _] => destruct b end; agreed.
Qed.

(** A pass of the loop ends alike, whether the removal of the scratch file
    succeeds or fails. *)
Lemma iteration_removal CreatePatch original current patchOps editor editorPath
    a r (u1 u2 : World) :
  agree u1 u2 →
  alike (iteration CreatePatch original current patchOps editor editorPath
           a u1)
        (iteration CreatePatch original current patchOps editor editorPath
           (withRemoval r a) u2).
Proof.
  intros [H1 H2]. unfold iteration, withRemoval.
  destruct a as [[name err] we ce se ed wte oe re rme rce].
  repeat flow. simpl.
  destruct err; simpl; [agreed|].
  destruct we; simpl; [agreed|].
  destruct ce; simpl; [agreed|].
  destruct se; simpl; [agreed|].
  destruct wte; simpl; [agreed|].
  destruct oe; simpl; [agreed|].
  unfold readAll. simpl. rewrite !lookup_alter_eq, !lookup_insert_eq. simpl.
  destruct re as [[n e]|]; simpl.
  - destruct rme, r; simpl; answers;
      (match goal with |- context [if ?b then _ else _] => destruct b end;
       simpl; [|agreed]);
      (destruct rce; simpl; [agreed|]);
      apply validate_agree; split; simpl; congruence.
  - destruct rme, r; simpl; (destruct rce; simpl; [agreed|]);
      apply validate_agree; split; simpl; congruence.
Qed.

Lemma editLoop_removal CreatePatch original editor editorPath script1 script2 :
  Forall2 sameButRemoval script1 script2 →
  ∀ current patchOps u1 u2,
    agree u1 u2 →
    match editLoop CreatePatch original current patchOps editor editorPath
            script1 u1,
          editLoop CreatePatch original current patchOps editor editorPath
            script2 u2 with
    | Some (x, v1), Some (y, v2) => x = y ∧ agree v1 v2
    | None, None => True
    | _, _ => False
    end.
Proof.
  induction 1 as [|a b script1 script2 [r ->] _ IH];
    intros current patchOps u1 u2 Hu; simpl; [exact I|].
  pose proof (iteration_removal CreatePatch original current patchOps editor
                editorPath a r u1 u2 Hu) as Hpass.
  destruct (iteration _ _ _ _ _ _ a u1) as [[c1 p1] v1 | x v1],
           (iteration _ _ _ _ _ _ (withRemoval r a) u2) as [[c2 p2] v2 | y v2];
    simpl in Hpass; try contradiction.
  - destruct Hpass as [Heq Hv]. injection Heq as <- <-. apply IH. exact Hv.
  - exact Hpass.
Qed.

Lemma assemble_agree (patchOps : list JsonPatchOperation) (u1 u2 : World) :
  agree u1 u2 → (assemble patchOps u1).1 = (assemble patchOps u2).1.
Proof.
  intros [Hin Hheap]. destruct patchOps as [|op ops]; [reflexivity|].
  rewrite !assemble_changed by discriminate. simpl.
  unfold Shell.ReadLine. rewrite Hin, Hheap.
  destruct (stdin u2); reflexivity.
Qed.

(** X16.  A removal of the scratch file that fails changes nothing in what
    [editFile] returns: two scripts of editor runs that differ only in the
    results of the removals lead to the same patch, the same error or the
    same panic, or both end before the loop does. *)
Theorem removal_failure_does_not_change_the_result
    CreatePatch original (script1 script2 : list Attempt) (w : World) :
  Forall2 sameButRemoval script1 script2 →
  fst <$> editFile CreatePatch original script1 w
  = fst <$> editFile CreatePatch original script2 w.
Proof.
  intros Hscripts. unfold editFile.
  destruct (Shell.Get cEDITOR w) as [[b|editor|z]|]; try reflexivity.
  destruct (lookup_editor w editor) as [raw [e|]]; [reflexivity|].
  pose proof (editLoop_removal CreatePatch original editor
                (Strings.TrimSpace (string_of_list_byte raw)) script1 script2
                Hscripts original [] w w (conj eq_refl eq_refl)) as Hloop.
  destruct (editLoop _ _ _ _ _ _ script1 w) as [[x v1]|],
           (editLoop _ _ _ _ _ _ script2 w) as [[y v2]|];
    try contradiction; [|reflexivity].
  destruct Hloop as [<- Hv]. destruct x as [ops|o]; simpl; [|reflexivity].
  f_equal. apply assemble_agree. exact Hv.
Qed.

Lemma removal_failure_does_not_change_the_result_witness :
  fst <$> editFile Fake.CreatePatch (B "[1]")
            [Fake.saves "/tmp/ldc1" "[1,"; Fake.saves "/tmp/ldc2" "[2]"]
            (Fake.world ["y"; "fixed typo"])
  = fst <$> editFile Fake.CreatePatch (B "[1]")
              [withRemoval (Some "permission denied")
                 (Fake.saves "/tmp/ldc1" "[1,");
               withRemoval (Some "permission denied")
                 (Fake.saves "/tmp/ldc2" "[2]")]
              (Fake.world ["y"; "fixed typo"]).
Proof.
  apply removal_failure_does_not_change_the_result.
  constructor; [eexists; reflexivity|].
  constructor; [eexists; reflexivity|]. constructor.
Defined.

(** ** editFile: what the editor is given *)

(** Case analysis of a pass that keeps the worlds in sight: an answer is
    the next line of the input, or the empty line. *)
Ltac pass_open :=
  repeat (simpl;
          match goal with
          | |- context [match ?t with _ => _ end] => is_var t; destruct t
          | |- context [readAll ?n ?r ?w] =>
              destruct (readAll n r w) as [? [?|]]
          | |- context [yesOrNo ?w] =>
              rewrite (yesOrNo_unfold w); unfold Shell.ReadLine
          | |- context [match stdin ?u with _ => _ end] => destruct (stdin u)
          | |- context [bool_decide ?P] => destruct (bool_decide P)
          end).

(** X17.  The editor is started on a scratch file that holds exactly
    [current]: the original in the first pass and, after an edit without a
    diff and a yes at the prompt, the text of that edit, so that what the
    user typed is what the user gets back. *)
Theorem editor_is_seeded_with_the_last_text
    CreatePatch original current patchOps editor editorPath
    (a1 a2 : Attempt) (w : World) (line : string) (more : list string) :
  (tempfile a1).2 = None → write_err a1 = None → close_err a1 = None →
  start_err a1 = None →
  (launches (worldOf (iteration CreatePatch original current patchOps editor
                        editorPath a1 w))
   = launches w ++
     [mkLaunch editorPath [editor; (tempfile a1).1] (Some current)]) ∧
  (invalidEdit CreatePatch original a1 → stdin w = line :: more →
   isYes line →
   (tempfile a2).2 = None → write_err a2 = None → close_err a2 = None →
   start_err a2 = None →
   ∃ w1,
     iteration CreatePatch original current [] editor editorPath a1 w
       = Next (edit a1 current, []) w1 ∧
     launches (worldOf (iteration CreatePatch original (edit a1 current) []
                          editor editorPath a2 w1))
     = launches w ++
       [mkLaunch editorPath [editor; (tempfile a1).1] (Some current);
        mkLaunch editorPath [editor; (tempfile a2).1]
                 (Some (edit a1 current))]).
Proof.
  assert (∀ cur ops (a : Attempt) (u : World),
            (tempfile a).2 = None → write_err a = None → close_err a = None →
            start_err a = None →
            launches (worldOf (iteration CreatePatch original cur ops editor
                                 editorPath a u))
            = launches u ++
              [mkLaunch editorPath [editor; (tempfile a).1] (Some cur)])
    as Hseed.
  { intros cur ops a u Ht Hw Hc Hs. unfold iteration, validate.
    destruct a as [[name err] we ce se ed wte oe re rme rce].
    simpl in Ht, Hw, Hc, Hs. subst err we ce se.
    repeat flow. pass_open; diffed; pass_open; simpl;
      rewrite ?lookup_insert_eq; reflexivity. }
  intros Ht Hw Hc Hs. split; [apply Hseed; assumption|].
  intros Hbad Hin Hyes Ht2 Hw2 Hc2 Hs2.
  destruct (invalid_edit_then_yes CreatePatch original editor editorPath a1
              current w line more Hbad Hin Hyes) as (w1 & Hpass & _ & _).
  exists w1. split; [exact Hpass|].
  rewrite (Hseed _ _ a2 w1 Ht2 Hw2 Hc2 Hs2).
  replace (launches w1) with
    (launches (worldOf (iteration CreatePatch original current [] editor
                          editorPath a1 w)))
    by (rewrite Hpass; reflexivity).
  rewrite (Hseed _ _ a1 w Ht Hw Hc Hs), <- app_assoc. reflexivity.
Qed.

Lemma editor_is_seeded_with_the_last_text_witness :
  launches (worldOf (iteration Fake.CreatePatch (B "[1]") (B "[1]") [] "vi"
                       "/usr/bin/vi" (Fake.saves "/tmp/ldc1" "[1,")
                       (Fake.world ["y"])))
  = [mkLaunch "/usr/bin/vi" ["vi"; "/tmp/ldc1"] (Some (B "[1]"))].
Proof.
  apply (proj1 (editor_is_seeded_with_the_last_text Fake.CreatePatch (B "[1]")
                  (B "[1]") [] "vi" "/usr/bin/vi"
                  (Fake.saves "/tmp/ldc1" "[1,") (Fake.saves "/tmp/ldc2" "[2]")
                  (Fake.world ["y"]) "y" []
                  eq_refl eq_refl eq_refl eq_refl)).
Defined.

(** ** editFile: the patch it builds *)

(** X18.  For an edit with a diff, [editFile] returns a patch with as many
    operations as the diff, with the [op] and [path] of each, in order,
    and with the next line of input as comment.  Every operation points to
    the one loop variable, so each value reads as the value of the last
    operation of the diff; for a diff of one operation that is the value
    of the diff. *)
Theorem patch_values_read_the_last_operation
    CreatePatch original current patchOps editor editorPath good rest w
    ops final comment more :
  quiet good → read_err good = None →
  CreatePatch original (edit good current) = (ops ++ [final], None) →
  stdin w = comment :: more →
  ∃ pc w',
    editSession CreatePatch original current patchOps editor editorPath
      (good :: rest) w = Some (Returns (Some pc) None, w') ∧
    Comment pc = comment ∧ stdin w' = more ∧
    map (λ p, (Op p, Path p)) (Patch pc)
      = map (λ op, (Operation op, jPath op)) (ops ++ [final]) ∧
    map (seen w') (Patch pc)
      = map (λ op, (Operation op, jPath op, Some (jValue final)))
            (ops ++ [final]) ∧
    (ops = [] → map (seen w') (Patch pc) = map direct [final]).
Proof.
  intros Hq Hr Hcp Hin.
  set (u := edited current editor editorPath good w).
  assert (editSession CreatePatch original current patchOps editor editorPath
            (good :: rest) w = Some (assemble (ops ++ [final]) u)) as Hrun.
  { apply editSession_break.
    rewrite (iteration_quiet _ _ _ _ _ _ _ _ Hq Hr).
    apply (validate_changed _ _ _ _ _ Hcp). }
  pose proof (assemble_seen ops final u) as Hseen.
  assert (ops ++ [final] ≠ []) as Hne by (destruct ops; discriminate).
  rewrite (assemble_changed _ _ Hne) in Hrun, Hseen.
  eexists _, _. split; [exact Hrun|]. simpl.
  split; [|split; [|split; [|split]]].
  - unfold u. rewrite (ReadLine_stdin _ comment more); [reflexivity|].
    rewrite edited_stdin. exact Hin.
  - unfold u. rewrite edited_stdin, Hin. reflexivity.
  - apply patchOf_fields.
  - exact Hseen.
  - intros ->. exact Hseen.
Qed.

Lemma patch_values_read_the_last_operation_witness :
  ∃ pc w',
    editSession Fake.CreatePatch (B "[1,1]") (B "[1,1]") [] "vi" "/usr/bin/vi"
      [Fake.saves "/tmp/ldc1" "[2,3]"] (Fake.world ["both"])
    = Some (Returns (Some pc) None, w') ∧
    map (seen w') (Patch pc)
    = [("replace", "/0", Some (JNumber "3"));
       ("replace", "/1", Some (JNumber "3"))].
Proof.
  destruct (patch_values_read_the_last_operation Fake.CreatePatch (B "[1,1]")
              (B "[1,1]") [] "vi" "/usr/bin/vi"
              (Fake.saves "/tmp/ldc1" "[2,3]") [] (Fake.world ["both"])
              [mkJsonPatchOperation "replace" "/0" (JNumber "2")]
              (mkJsonPatchOperation "replace" "/1" (JNumber "3")) "both" [])
    as (pc & w' & Hrun & _ & _ & _ & Hseen & _).
  - apply saves_quiet.
  - reflexivity.
  - vm_compute. reflexivity.
  - reflexivity.
  - exists pc, w'. split; [exact Hrun | exact Hseen].
Defined.

(** ** editFile: a read that fails *)

Lemma iteration_cut CreatePatch original current patchOps editor editorPath
    a w n e :
  quiet a → read_err a = Some (n, e) →
  iteration CreatePatch original current patchOps editor editorPath a w =
  let u := Shell.Print "Try again? [y]/n  "
             (Shell.Println ["Unable to read file: %s"; showErr (remove_err a)]
                (edited current editor editorPath a w)) in
  if (yesOrNo u).1
  then validate CreatePatch original (take n (edit a current)) (yesOrNo u).2
  else Leave (Break patchOps) (Shell.Println ["Edit aborted"] (yesOrNo u).2).
Proof.
  intros (Ht & Hw & Hc & Hs & Hwt & Ho & Hrc) Hr.
  unfold iteration, edited. destruct (tempfile a) as [name err]. simpl in Ht.
  subst err. rewrite Hw, Hc, Hs, Hwt, Ho, Hrc, Hr. repeat flow. simpl.
  rewrite lookup_alter_eq, lookup_insert_eq. simpl.
  destruct (remove_err a); simpl; destruct (yesOrNo _) as [[] ?]; reflexivity.
Qed.

(** X19.  After a read of the scratch file that failed, a line that counts
    as no ends the loop: [editFile] returns no patch and no error.  The
    message of the failed read shows the result of the removal of the
    file, not the error of the read. *)
Theorem no_after_a_failed_read_returns_nothing
    CreatePatch original current editor editorPath a rest w n e line more :
  quiet a → read_err a = Some (n, e) →
  stdin w = line :: more → isNo line →
  ∃ w',
    editSession CreatePatch original current [] editor editorPath
      (a :: rest) w = Some (Returns None None, w') ∧
    stdin w' = more ∧
    stdout w' = stdout w ++ removalWarning a ++
                ["Unable to read file: %s " +:+ showErr (remove_err a) +:+ nl;
                 "Try again? [y]/n  "; "Edit aborted" +:+ nl] ∧
    length (launches w') = S (length (launches w)) ∧
    (remove_err a = None → files w' !! (tempfile a).1 = None).
Proof.
  intros Hq Hr Hin Hno.
  set (u := Shell.Print "Try again? [y]/n  "
              (Shell.Println ["Unable to read file: %s"; showErr (remove_err a)]
                 (edited current editor editorPath a w))).
  assert (yesOrNo u = (false, with_stdin more u)) as Hans.
  { apply (yesOrNo_no _ line more); [|exact Hno].
    unfold u. simpl. rewrite edited_stdin. exact Hin. }
  eexists. split.
  - erewrite editSession_break; cycle 1.
    { rewrite (iteration_cut _ _ _ _ _ _ _ _ _ _ Hq Hr).
      simpl. fold u. rewrite Hans. reflexivity. }
    reflexivity.
  - simpl. split; [reflexivity|]. split; [|split].
    + rewrite edited_stdout. unfold removalWarning.
      rewrite <- !app_assoc. reflexivity.
    + unfold edited. destruct (remove_err a); simpl; rewrite length_app;
        simpl; lia.
    + apply scratch_removed_after_quiet_run.
Qed.

Lemma no_after_a_failed_read_returns_nothing_witness :
  ∃ w',
    editSession Fake.CreatePatch (B "[1]") (B "[1]") [] "vi" "/usr/bin/vi"
      [cut "/tmp/ldc1" "[2]" 2] (Fake.world ["n"])
    = Some (Returns None None, w') ∧
    stdout w' = ["Unable to read file: %s <nil>" +:+ nl;
                 "Try again? [y]/n  "; "Edit aborted" +:+ nl].
Proof.
  destruct (no_after_a_failed_read_returns_nothing Fake.CreatePatch (B "[1]")
              (B "[1]") "vi" "/usr/bin/vi" (cut "/tmp/ldc1" "[2]" 2) []
              (Fake.world ["n"]) 2 "read /tmp/ldc: input/output error" "n" [])
    as (w' & Hrun & _ & Hout & _).
  - repeat split.
  - reflexivity.
  - reflexivity.
  - split; vm_compute; discriminate.
  - exists w'. split; [exact Hrun | exact Hout].
Defined.

(** X20.  After a read of the scratch file that failed, a line that counts
    as yes does not start the editor again: the pass goes on to the diff
    of the original against the bytes that were read before the error,
    in the world after the prompt. *)
Theorem yes_after_a_failed_read_diffs_the_bytes_read
    CreatePatch original current patchOps editor editorPath a w n e line more :
  quiet a → read_err a = Some (n, e) →
  stdin w = line :: more → isYes line →
  iteration CreatePatch original current patchOps editor editorPath a w
  = validate CreatePatch original (take n (edit a current))
      (with_stdin more
         (Shell.Print "Try again? [y]/n  "
            (Shell.Println ["Unable to read file: %s"; showErr (remove_err a)]
               (edited current editor editorPath a w)))).
Proof.
  intros Hq Hr Hin Hyes. rewrite (iteration_cut _ _ _ _ _ _ _ _ _ _ Hq Hr).
  simpl.
  rewrite (yesOrNo_yes _ line more); [reflexivity | | exact Hyes].
  simpl. rewrite edited_stdin. exact Hin.
Qed.

Lemma yes_after_a_failed_read_diffs_the_bytes_read_witness :
  ∃ w',
    iteration Fake.CreatePatch (B "[1]") (B "[1]") [] "vi" "/usr/bin/vi"
      (cut "/tmp/ldc1" "[2],3]" 3) (Fake.world ["y"])
    = Leave (Break [mkJsonPatchOperation "replace" "/0" (JNumber "2")]) w'.
Proof.
  eexists.
  rewrite (yes_after_a_failed_read_diffs_the_bytes_read Fake.CreatePatch
             (B "[1]") (B "[1]") [] "vi" "/usr/bin/vi"
             (cut "/tmp/ldc1" "[2],3]" 3) (Fake.world ["y"]) 3
             "read /tmp/ldc: input/output error" "y" []).
  - apply validate_changed. vm_compute. reflexivity.
  - repeat split.
  - reflexivity.
  - reflexivity.
  - right. reflexivity.
Defined.

(** ** editFile: errors that end it *)

(** X21.  Every error that ends [editFile] between the creation of the
    scratch file and the read of it (a failed write, close, start of the
    editor, wait for it or reopening) leaves the scratch file behind; the
    error is returned, nothing is printed and no input is taken. *)
Theorem fatal_error_leaves_the_scratch_file
    CreatePatch original current patchOps editor editorPath a rest w name e :
  tempfile a = (name, None) → firstFatal a = Some e →
  ∃ w',
    editSession CreatePatch original current patchOps editor editorPath
      (a :: rest) w = Some (Returns None (Some e), w') ∧
    is_Some (files w' !! name) ∧
    stdin w' = stdin w ∧ stdout w' = stdout w.
Proof.
  intros Ht Hfatal. unfold editSession. simpl. unfold iteration, firstFatal in *.
  destruct a as [[name' err] we ce se ed wte oe re rme rce].
  simpl in Ht, Hfatal. injection Ht as -> ->. repeat flow. simpl.
  destruct we; simpl;
    [injection Hfatal as ->; eexists; split; [reflexivity|]; simpl;
     rewrite lookup_insert_eq; eauto|].
  destruct ce; simpl;
    [injection Hfatal as ->; eexists; split; [reflexivity|]; simpl;
     rewrite lookup_insert_eq; eauto|].
  destruct se; simpl;
    [injection Hfatal as ->; eexists; split; [reflexivity|]; simpl;
     rewrite lookup_insert_eq; eauto|].
  destruct wte; simpl;
    [injection Hfatal as ->; eexists; split; [reflexivity|]; simpl;
     rewrite lookup_alter_eq, lookup_insert_eq; simpl; eauto|].
  subst oe. simpl. eexists. split; [reflexivity|]. simpl.
  rewrite lookup_alter_eq, lookup_insert_eq. simpl. eauto.
Qed.

Lemma fatal_error_leaves_the_scratch_file_witness :
  ∃ w',
    editSession Fake.CreatePatch (B "[1]") (B "[1]") [] "vi" "/usr/bin/vi"
      [unawaited "/tmp/ldc1"] (Fake.world [])
    = Some (Returns None (Some "wait: no child processes"), w') ∧
    is_Some (files w' !! "/tmp/ldc1").
Proof.
  destruct (fatal_error_leaves_the_scratch_file Fake.CreatePatch (B "[1]")
              (B "[1]") [] "vi" "/usr/bin/vi" (unawaited "/tmp/ldc1") []
              (Fake.world []) "/tmp/ldc1" "wait: no child processes"
              eq_refl eq_refl) as (w' & Hrun & Hfile & _).
  exists w'. split; [exact Hrun | exact Hfile].
Defined.

(** X22.  When no scratch file can be created, [editFile] returns the
    error and reports it; it creates no file, starts no editor, prints
    nothing and takes no input.  When the scratch file cannot be closed
    after the read, the error is returned without a report, after the
    file was removed, and the text read is not compared. *)
Theorem errors_before_and_after_the_editor
    CreatePatch original current patchOps editor editorPath a rest w e :
  (∀ name, tempfile a = (name, Some e) →
     editSession CreatePatch original current patchOps editor editorPath
       (a :: rest) w = Some (Returns None (Some e), Shell.Err e w)) ∧
  (readable a →
   read_err a = None → reclose_err a = Some e → remove_err a = None →
   ∃ w',
     editSession CreatePatch original current patchOps editor editorPath
       (a :: rest) w = Some (Returns None (Some e), w') ∧
     files w' !! (tempfile a).1 = None ∧
     reported w' = reported w ∧ stdin w' = stdin w ∧ stdout w' = stdout w).
Proof.
  split.
  - intros name Ht. unfold editSession. simpl. unfold iteration.
    rewrite Ht. reflexivity.
  - intros (Ht & Hw & Hc & Hs & Hwt & Ho) Hr Hrc Hrm.
    unfold editSession. simpl. unfold iteration.
    destruct (tempfile a) as [name err]. simpl in Ht. subst err.
    rewrite Hw, Hc, Hs, Hwt, Ho, Hr, Hrc, Hrm. repeat flow. simpl.
    eexists. split; [reflexivity|]. simpl.
    rewrite lookup_delete_eq. repeat split.
Qed.

Lemma errors_before_and_after_the_editor_witness :
  editSession Fake.CreatePatch (B "[1]") (B "[1]") [] "vi" "/usr/bin/vi"
    [fileless] (Fake.world [])
  = Some (Returns None (Some "no space left on device"),
          Shell.Err "no space left on device" (Fake.world [])) ∧
  ∃ w',
    editSession Fake.CreatePatch (B "[1]") (B "[1]") [] "vi" "/usr/bin/vi"
      [unclosed "/tmp/ldc1" "[2]"] (Fake.world [])
    = Some (Returns None (Some "close: bad file descriptor"), w') ∧
    files w' !! "/tmp/ldc1" = None.
Proof.
  split.
  - apply (proj1 (errors_before_and_after_the_editor Fake.CreatePatch (B "[1]")
                    (B "[1]") [] "vi" "/usr/bin/vi" fileless []
                    (Fake.world []) "no space left on device") "").
    reflexivity.
  - destruct (proj2 (errors_before_and_after_the_editor Fake.CreatePatch
                       (B "[1]") (B "[1]") [] "vi" "/usr/bin/vi"
                       (unclosed "/tmp/ldc1" "[2]") [] (Fake.world [])
                       "close: bad file descriptor"))
      as (w' & Hrun & Hfile & _).
    + repeat split.
    + reflexivity.
    + reflexivity.
    + reflexivity.
    + exists w'. split; [exact Hrun | exact Hfile].
Defined.

(** ** deleteProject and the console *)

Lemma getProjectArg_stdin (w : World) :
  stdin (call getProjectArg w).2 = stdin w.
Proof.
  unfold call, getProjectArg. repeat flow.
  unfold listProjects, listProjectKeys, Api.GetProjects, Shell.MultiChoice.
  destruct (projects_reply w (length (calls w))) as [projects [e|]]; simpl;
    [reflexivity|].
  destruct (args w) as [|projectKey more]; simpl.
  - destruct (projects_reply w _) as [later [e|]]; simpl; [reflexivity|].
    destruct (picks w) as [|k ks]; simpl; try case_bool_decide; reflexivity.
  - destruct (findProject projectKey projects None); reflexivity.
Qed.

Lemma toPrefix_firstOrEmpty (args : list string) :
  toPrefix args = firstOrEmpty args.
Proof. reflexivity. Qed.

(** X23.  [deleteProject] never asks for the confirmation: in every
    session, interactive or not, it takes no line of input, and the prompt
    of [confirmDelete] is not printed after the lookup. *)
Theorem deleteProject_asks_nothing (w : World) :
  stdin (call deleteProject w).2 = stdin w ∧
  stdout (call deleteProject w).2 = stdout (call getProjectArg w).2.
Proof.
  assert ((call deleteProject w).2 = (call getProjectArg w).2) as ->.
  { unfold deleteProject, invoke. repeat flow. unfold call at 1.
    destruct (call getProjectArg w) as [[[p|]|msg] w1]; reflexivity. }
  split; [apply getProjectArg_stdin | reflexivity].
Qed.
